(** * duplex over SSH: frame codec, greeting and channel dispatch

    A shallow embedding of [poc2/duplex/ssh.go].  The SSH transport
    ([github.com/progrium/crypto/ssh]) and the [net] package are external
    collaborators of the file: they appear here as interfaces (type classes,
    records of methods and section variables), together with small in-memory
    implementations that the closed examples run on.

    Part I holds the definitions, Part II and Part III the lemmas and
    theorems. *)

From stdpp Require Import base gmap strings list.
From Stdlib Require Import ZArith Lia.
From Stdlib Require Import Init.Byte Strings.Byte Strings.Ascii.

Local Open Scope Z_scope.

(** * Part I: the program *)

(** ** Machine integers and bytes *)

(** Go's [uint32(x)] conversion: the low 32 bits. *)
Definition uint32 (z : Z) : Z := z mod 2 ^ 32.

(** The numeric value of a byte, [0 <= v < 256]. *)
Definition byte_to_Z (b : byte) : Z := Z.of_N (Byte.to_N b).

(** Go's [byte(x)] conversion of an unsigned integer: the low 8 bits. *)
Definition byte_of_Z (z : Z) : byte :=
  match Byte.of_N (Z.to_N (z mod 256)) with
  | Some b => b
  | None => x00
  end.

(** [len(s)] of a slice, as a Go [int]. *)
Definition len {A} (s : list A) : Z := Z.of_nat (length s).

(** [make([]byte, n)]: a zeroed slice. *)
Definition make (n : nat) : list byte := repeat x00 n.

(** What a callee that stored [data] at the front of the caller's slice [buf]
    leaves in [buf]. *)
Definition stored (buf data : list byte) : list byte :=
  firstn (length buf) data ++ skipn (length data) buf.

(** [binary.BigEndian.Uint32(b)]; Go panics when [len(b) < 4]. *)
Definition BigEndian_Uint32 (b : list byte) : option Z :=
  match b with
  | b0 :: b1 :: b2 :: b3 :: _ =>
      Some (Z.lor (Z.lor (Z.lor (byte_to_Z b3) (Z.shiftl (byte_to_Z b2) 8))
                         (Z.shiftl (byte_to_Z b1) 16))
                  (Z.shiftl (byte_to_Z b0) 24))
  | _ => None
  end.

(** [bytes.Equal(a, b)] *)
Fixpoint bytes_Equal (a b : list byte) : bool :=
  match a, b with
  | [], [] => true
  | x :: a', y :: b' => Byte.eqb x y && bytes_Equal a' b'
  | _, _ => false
  end.

(** ** Errors, results and effects *)

Inductive error : Type :=
  | EOF                        (* io.EOF *)
  | errors_New (msg : string). (* errors.New(msg) and the transport's errors *)

Inductive result (A : Type) : Type :=
  | Ok (a : A)
  | Err (e : error).
Arguments Ok {A} a.
Arguments Err {A} e.

(** [err != nil] *)
Definition is_error (err : option error) : bool :=
  match err with
  | Some _ => true
  | None => false
  end.

(** [ssh.RejectionReason] *)
Inductive RejectionReason : Type :=
  | Prohibited
  | ConnectionFailed
  | UnknownChannelType
  | ResourceShortage.

(** What a function does to the outside, in the order it does it.  A
    channel-open is named by its number on the connection. *)
Inductive effect : Type :=
  | Reject (id : nat) (reason : RejectionReason) (message : string)
  | Accepted (id : nat)
  | DiscardRequests (id : nat)
  | log_Println (msg : string)
  | conn_Close.

(** ** The transport's byte stream: [ssh.Channel]

    [Read c n] is a call [c.Read(p)] with [len(p) = n]: it yields the bytes the
    transport stored at the front of [p] (their number is Go's first result),
    the error, and the channel afterwards.  [Write c p] is [c.Write(p)]. *)
Class ssh_Channel (T : Type) := {
  Read : T -> nat -> list byte * option error * T;
  Write : T -> list byte -> Z * option error * T
}.

(** [ssh.Marshal] and [ssh.Unmarshal] at the type of one struct.  [Unmarshal
    data out] decodes into the variable that holds [out] and yields the error
    and what the variable holds afterwards. *)
Class ssh_Codec (A : Type) := {
  Marshal : A -> list byte;
  Unmarshal : list byte -> A -> option error * A
}.

(** [ssh.PublicKey] and [ssh.Signer], as far as the file uses them. *)
Class ssh_PublicKey (K : Type) := {
  PublicKey_Marshal : K -> list byte
}.

Class ssh_Signer (S K : Type) := {
  PublicKey : S -> K
}.

Inductive ssh_Permissions : Type := Permissions.

(** ** ssh structs *)

Record ssh_greetingPayload := { Name : string }.

Record ssh_channelData := { Service : string; Headers : list string }.

(** [type ssh_channel struct { ssh.Channel; ssh_channelData }] *)
Record ssh_channel (T : Type) := {
  Channel : T;
  channelData : ssh_channelData
}.
Arguments Channel {T} _.
Arguments channelData {T} _.

(** [ssh.Conn]: the methods the file calls, with the remote's answers. *)
Record ssh_Conn := {
  User : string;
  SendRequest : string -> bool -> list byte -> bool * list byte * option error
}.

Record ssh_peerConnection := {
  addr : string;
  name : string;
  conn : ssh_Conn
}.

(** [net.Conn]: the remote address of a raw connection. *)
Record net_Conn := {
  RemoteAddr_Network : string;
  RemoteAddr_String : string
}.

(** [ssh.NewChannel]: an inbound channel-open.  [nc_Accept] is what the
    transport answers when the open is accepted. *)
Record ssh_NewChannel (T : Type) := {
  nc_id : nat;
  ChannelType : string;
  ExtraData : list byte;
  nc_Accept : result T
}.
Arguments nc_id {T} _.
Arguments ChannelType {T} _.
Arguments ExtraData {T} _.
Arguments nc_Accept {T} _.

(** [ssh.Request]: an out-of-band request. *)
Record ssh_Request := {
  ReqType : string;
  WantReply : bool;
  Payload : list byte
}.

(** Modelled from the spec: the keys of a peer's configuration options, the
    local display name and the private-key reference; the constants [OptName]
    and [OptPrivateKey] are declared in another file of the package. *)
Inductive Option : Type := OptName | OptPrivateKey.

(** Modelled from the spec: the [Peer] struct, declared in another file of the
    package.  It holds the configuration options, the registry of live
    connections keyed by remote address, and the intake queue of inbound
    channels (unbounded, first in first out). *)
Record Peer (T : Type) := {
  options : Option -> string;
  conns : gmap string ssh_peerConnection;
  incomingCh : list (ssh_channel T)
}.
Arguments options {T} _.
Arguments conns {T} _.
Arguments incomingCh {T} _.

Definition GetOption {T} (peer : Peer T) (o : Option) : string := options peer o.

(** [peer.conns[key] = c] *)
Definition set_conn {T} (peer : Peer T) (key : string) (c : ssh_peerConnection)
  : Peer T :=
  {| options := options peer; conns := <[key := c]> (conns peer);
     incomingCh := incomingCh peer |}.

(** [peer.incomingCh <- c] *)
Definition send_incomingCh {T} (peer : Peer T) (c : ssh_channel T) : Peer T :=
  {| options := options peer; conns := conns peer;
     incomingCh := incomingCh peer ++ [c] |}.

(** ** Frames: [ReadFrame] and [WriteFrame] *)

Section Frames.
Context {T : Type} `{ssh_Channel T}.

Definition with_Channel (c : ssh_channel T) (t : T) : ssh_channel T :=
  {| Channel := t; channelData := channelData c |}.

(** The slice [WriteFrame] builds and hands to [c.Write]. *)
Definition WriteFrame_buffer (frame : list byte) : list byte :=
  let buffer := [] in
  let n := uint32 (len frame) in
  let buffer := buffer ++ [byte_of_Z (Z.shiftr n 24); byte_of_Z (Z.shiftr n 16);
                           byte_of_Z (Z.shiftr n 8); byte_of_Z n] in
  let buffer := buffer ++ frame in
  buffer.

Definition WriteFrame (c : ssh_channel T) (frame : list byte)
  : option error * ssh_channel T :=
  let '(_, err, t) := Write (Channel c) (WriteFrame_buffer frame) in
  (err, with_Channel c t).

Definition ReadFrame (c : ssh_channel T) : result (list byte) * ssh_channel T :=
  let bytes := make 4 in
  let '(got, err, t) := Read (Channel c) 4 in
  let bytes := stored bytes got in
  match err with
  | Some e => (Err e, with_Channel c t)
  | None =>
      match BigEndian_Uint32 bytes with
      | None => (Err (errors_New "index out of range"), with_Channel c t)
      | Some length =>
          let frame := make (Z.to_nat length) in
          let '(got, err, t) := Read t (Z.to_nat length) in
          let frame := stored frame got in
          match err with
          | Some e => (Err e, with_Channel c t)
          | None => (Ok frame, with_Channel c t)
          end
      end
  end.

Definition Headers_of (c : ssh_channel T) : list string := Headers (channelData c).
Definition Service_of (c : ssh_channel T) : string := Service (channelData c).

End Frames.

(** ** An in-memory channel

    The bytes arrive in bursts.  A [Read] returns bytes of the burst at the
    head only, as many as fit the caller's slice; a [Read] into an empty slice
    returns at once; when no burst is left the stream has ended.  A [Write]
    is delivered whole, as one burst. *)
Record pipe := Pipe { bursts : list (list byte) }.

Fixpoint pipe_read (bs : list (list byte)) (n : nat)
  : list byte * option error * pipe :=
  match n with
  | O => ([], None, Pipe bs)
  | _ =>
      match bs with
      | [] => ([], Some EOF, Pipe [])
      | [] :: bs' => pipe_read bs' n
      | b :: bs' =>
          (firstn n b, None,
           Pipe (if (length b <=? n)%nat then bs' else skipn n b :: bs'))
      end
  end.

Definition pipe_write (p : pipe) (data : list byte) : Z * option error * pipe :=
  (len data, None, Pipe (bursts p ++ [data])).

#[export] Instance pipe_Channel : ssh_Channel pipe := {
  Read p n := pipe_read (bursts p) n;
  Write := pipe_write
}.

(** All the bytes still in the pipe, in order. *)
Definition wire (p : pipe) : list byte := concat (bursts p).

Definition on_pipe (p : pipe) : ssh_channel pipe :=
  {| Channel := p; channelData := {| Service := "echo"; Headers := [] |} |}.

(** The 4-byte big-endian encoding of [n], in the words of the frame format:
    the base-256 digits of [n], most significant first. *)
Definition big_endian_4 (n : Z) : list byte :=
  [byte_of_Z (n / 256 ^ 3); byte_of_Z (n / 256 ^ 2); byte_of_Z (n / 256); byte_of_Z n].

(** The value of a big-endian byte string. *)
Definition big_endian_value (bs : list byte) : Z :=
  fold_left (fun acc b => acc * 256 + byte_to_Z b) bs 0.

(** ** The SSH wire encoding of the two structs

    [ssh.Marshal] lays a struct out field by field (RFC 4251, section 5): a
    string as a 4-byte big-endian length and the bytes, a [[]string] as a
    name-list, the names joined by commas and written as a string.  The
    theorems of Part II take the codec as a parameter; this implementation is
    the one the closed examples run on. *)

Definition appendU32 (n : Z) : list byte :=
  [byte_of_Z (Z.shiftr n 24); byte_of_Z (Z.shiftr n 16);
   byte_of_Z (Z.shiftr n 8); byte_of_Z n].

Definition marshal_string (s : list byte) : list byte :=
  appendU32 (uint32 (len s)) ++ s.

Definition parseString (inp : list byte) : option (list byte * list byte) :=
  match BigEndian_Uint32 inp with
  | None => None
  | Some length =>
      let inp := skipn 4 inp in
      if uint32 (len inp) <? length then None
      else Some (firstn (Z.to_nat length) inp, skipn (Z.to_nat length) inp)
  end.

(** [bytes.Split(s, sep)] for a one-byte separator. *)
Fixpoint bytes_Split (sep : byte) (s : list byte) : list (list byte) :=
  match s with
  | [] => [[]]
  | b :: s' =>
      if Byte.eqb b sep then [] :: bytes_Split sep s'
      else match bytes_Split sep s' with
           | part :: parts => (b :: part) :: parts
           | [] => [[b]]
           end
  end.

Definition parseNameList (inp : list byte) : option (list string * list byte) :=
  match parseString inp with
  | None => None
  | Some (contents, rest) =>
      if len contents =? 0 then Some ([], rest)
      else Some (map String.string_of_list_byte (bytes_Split ","%byte contents), rest)
  end.

Definition errShortRead : error := errors_New "ssh: short read".
Definition parseError : error := errors_New "ssh: parse error".

#[export] Instance greeting_Codec : ssh_Codec ssh_greetingPayload := {
  Marshal g := marshal_string (String.list_byte_of_string (Name g));
  Unmarshal data out :=
    match parseString data with
    | None => (Some errShortRead, out)
    | Some (s, rest) =>
        let out := {| Name := String.string_of_list_byte s |} in
        match rest with
        | [] => (None, out)
        | _ => (Some parseError, out)
        end
    end
}.

#[export] Instance channelData_Codec : ssh_Codec ssh_channelData := {
  Marshal m :=
    marshal_string (String.list_byte_of_string (Service m))
    ++ marshal_string (String.list_byte_of_string (String.concat "," (Headers m)));
  Unmarshal data out :=
    match parseString data with
    | None => (Some errShortRead, out)
    | Some (s, rest) =>
        let out := {| Service := String.string_of_list_byte s; Headers := Headers out |} in
        match parseNameList rest with
        | None => (Some errShortRead, out)
        | Some (nl, rest) =>
            let out := {| Service := Service out; Headers := nl |} in
            match rest with
            | [] => (None, out)
            | _ => (Some parseError, out)
            end
        end
    end
}.

(** ** ssh server: the authentication callback of [newPeerListener_ssh] *)

Section Server.
Context {K S : Type} `{ssh_PublicKey K} `{ssh_Signer S K}.

(** [config.PublicKeyCallback], the closure over the server's private key
    [pk]; [conn] is the [ssh.ConnMetadata] of the connecting principal. *)
Definition PublicKeyCallback (pk : S) (conn : string) (key : K)
  : result ssh_Permissions :=
  if bytes_Equal (PublicKey_Marshal key) (PublicKey_Marshal (PublicKey pk))
  then Ok Permissions
  else Err (errors_New "unauthorized").

End Server.

(** Keys given by their serialization, for the closed examples. *)
#[export] Instance raw_PublicKey : ssh_PublicKey (list byte) := {
  PublicKey_Marshal k := k
}.

#[export] Instance raw_Signer : ssh_Signer (list byte) (list byte) := {
  PublicKey sk := sk
}.

(** ** Inbound channel dispatch: [ssh_acceptChannels] *)

Section Accept.
Context {T : Type} `{ssh_Codec ssh_channelData}.

(** The zero value of [var meta ssh_channelData]. *)
Definition zero_meta : ssh_channelData := {| Service := ""; Headers := [] |}.

(** The body of the goroutine started for an [@duplex] open, run from its
    first statement to its return with nothing else running in between.
    [meta] is the variable declared before the loop: the body decodes into it
    and reads it back. *)
Definition accept_duplex (newCh : ssh_NewChannel T) (meta : ssh_channelData)
  (peer : Peer T) : ssh_channelData * Peer T * list effect :=
  let '(err, meta) := Unmarshal (ExtraData newCh) meta in
  match err with
  | Some _ =>
      (meta, peer,
       [Reject (nc_id newCh) UnknownChannelType "failed to parse channel data"])
  | None =>
      if String.eqb (Service meta) ""
      then (meta, peer, [Reject (nc_id newCh) UnknownChannelType "empty service"])
      else
        match nc_Accept newCh with
        | Err _ => (meta, peer, [log_Println "debug: accept error:"])
        | Ok ch =>
            (meta,
             send_incomingCh peer {| Channel := ch; channelData := meta |},
             [Accepted (nc_id newCh); DiscardRequests (nc_id newCh)])
        end
  end.

(** The loop [for newCh := range chans], every goroutine running to its
    return before the next open is received. *)
Fixpoint accept_loop (chans : list (ssh_NewChannel T)) (meta : ssh_channelData)
  (peer : Peer T) : ssh_channelData * Peer T * list effect :=
  match chans with
  | [] => (meta, peer, [])
  | newCh :: chans' =>
      if String.eqb (ChannelType newCh) "@duplex"
      then
        let '(meta, peer, done) := accept_duplex newCh meta peer in
        let '(meta, peer, rest) := accept_loop chans' meta peer in
        (meta, peer, done ++ rest)
      else accept_loop chans' meta peer
  end.

Definition ssh_acceptChannels (chans : list (ssh_NewChannel T)) (peer : Peer T)
  : Peer T * list effect :=
  let '(_, peer, done) := accept_loop chans zero_meta peer in
  (peer, done).

(** *** The same loop, one statement at a time

    The goroutines run concurrently with the loop and with each other.  A
    schedule picks who takes the next step. *)

(** Where a goroutine stands. *)
Inductive pc : Type :=
  | AtUnmarshal                  (* err := ssh.Unmarshal(newCh.ExtraData(), &meta) *)
  | AtCheck (err : option error) (* if err != nil ..; if meta.Service == "" .. *)
  | AtAccept                     (* ch, reqs, err := newCh.Accept() *)
  | AtPush (ch : T)              (* peer.incomingCh <- &ssh_channel{ch, meta} *)
  | Returned.

Record goroutine := {
  own_newCh : ssh_NewChannel T;  (* the open it was started for *)
  at_pc : pc
}.

(** [newCh] is declared by the [for] clause: one variable for the whole loop
    before Go 1.22, a fresh one in every iteration since. *)
Inductive loopvar : Type := PerLoop | PerIteration.

Record accept_state := {
  st_meta : ssh_channelData;             (* var meta, shared by all goroutines *)
  st_newCh : option (ssh_NewChannel T);  (* the loop variable *)
  st_chans : list (ssh_NewChannel T);    (* opens not yet received *)
  st_gos : list goroutine;
  st_done : list effect;
  st_peer : Peer T
}.

Definition accept_init (chans : list (ssh_NewChannel T)) (peer : Peer T)
  : accept_state :=
  {| st_meta := zero_meta; st_newCh := None; st_chans := chans; st_gos := [];
     st_done := []; st_peer := peer |}.

(** The open a goroutine's [newCh] denotes. *)
Definition newCh_of (lv : loopvar) (st : accept_state) (g : goroutine)
  : ssh_NewChannel T :=
  match lv with
  | PerIteration => own_newCh g
  | PerLoop => default (own_newCh g) (st_newCh st)
  end.

Inductive thread : Type :=
  | Loop
  | Go (k : nat).

(** Goroutine [k] moves to [at'], having set [meta], done [eff] and left the
    peer as [peer]. *)
Definition go_step (st : accept_state) (k : nat) (g : goroutine) (at' : pc)
  (meta : ssh_channelData) (eff : list effect) (peer : Peer T) : accept_state :=
  {| st_meta := meta; st_newCh := st_newCh st; st_chans := st_chans st;
     st_gos := <[k := {| own_newCh := own_newCh g; at_pc := at' |}]> (st_gos st);
     st_done := st_done st ++ eff; st_peer := peer |}.

Definition step (lv : loopvar) (t : thread) (st : accept_state)
  : option accept_state :=
  match t with
  | Loop =>
      match st_chans st with
      | [] => None
      | newCh :: chans' =>
          Some {| st_meta := st_meta st; st_newCh := Some newCh;
                  st_chans := chans';
                  st_gos :=
                    st_gos st ++
                    (if String.eqb (ChannelType newCh) "@duplex"
                     then [{| own_newCh := newCh; at_pc := AtUnmarshal |}]
                     else []);
                  st_done := st_done st; st_peer := st_peer st |}
      end
  | Go k =>
      match st_gos st !! k with
      | None => None
      | Some g =>
          let newCh := newCh_of lv st g in
          match at_pc g with
          | AtUnmarshal =>
              let '(err, meta) := Unmarshal (ExtraData newCh) (st_meta st) in
              Some (go_step st k g (AtCheck err) meta [] (st_peer st))
          | AtCheck (Some _) =>
              Some (go_step st k g Returned (st_meta st)
                      [Reject (nc_id newCh) UnknownChannelType
                         "failed to parse channel data"] (st_peer st))
          | AtCheck None =>
              if String.eqb (Service (st_meta st)) ""
              then Some (go_step st k g Returned (st_meta st)
                           [Reject (nc_id newCh) UnknownChannelType "empty service"]
                           (st_peer st))
              else Some (go_step st k g AtAccept (st_meta st) [] (st_peer st))
          | AtAccept =>
              match nc_Accept newCh with
              | Err _ =>
                  Some (go_step st k g Returned (st_meta st)
                          [log_Println "debug: accept error:"] (st_peer st))
              | Ok ch =>
                  Some (go_step st k g (AtPush ch) (st_meta st)
                          [Accepted (nc_id newCh)] (st_peer st))
              end
          | AtPush ch =>
              Some (go_step st k g Returned (st_meta st)
                      [DiscardRequests (nc_id newCh)]
                      (send_incomingCh (st_peer st)
                         {| Channel := ch; channelData := st_meta st |}))
          | Returned => None
          end
      end
  end.

Fixpoint run (lv : loopvar) (schedule : list thread) (st : accept_state)
  : option accept_state :=
  match schedule with
  | [] => Some st
  | t :: schedule' =>
      match step lv t st with
      | None => None
      | Some st' => run lv schedule' st'
      end
  end.

End Accept.

(** ** ssh server: [ssh_handleConn] *)

Section Listener.
Context {T : Type} `{ssh_Codec ssh_greetingPayload} `{ssh_Codec ssh_channelData}.

(** [ssh.NewServerConn(conn, config)]: the handshake, done by the transport. *)
Variable ServerConfig : Type.
Variable NewServerConn :
  net_Conn -> ServerConfig ->
  result (ssh_Conn * list (ssh_NewChannel T) * list ssh_Request).

(** The out-of-band request the acceptor sends after the handshake. *)
Definition greeting_request (peer : Peer T) : ssh_Request :=
  {| ReqType := "@duplex-greeting"; WantReply := true;
     Payload := Marshal {| Name := GetOption peer OptName |} |}.

(** [chans] is read until the transport closes it; the requests in [reqs] are
    discarded by a goroutine of the transport's.  [peer.Lock()] and
    [peer.Unlock()] keep other connections' handlers out of the registry
    during the assignment.  The deferred [conn.Close()] runs at every
    return. *)
Definition ssh_handleConn (netConn : net_Conn) (config : ServerConfig)
  (peer : Peer T) : Peer T * list effect :=
  match NewServerConn netConn config with
  | Err _ => (peer, [log_Println "debug: failed to handshake:"; conn_Close])
  | Ok (sshConn, chans, reqs) =>
      let peer :=
        set_conn peer (RemoteAddr_String netConn)
          {| addr := RemoteAddr_Network netConn +:+ "://" +:+ RemoteAddr_String netConn;
             name := User sshConn;
             conn := sshConn |} in
      let greeting := greeting_request peer in
      let '(ok, _, err) :=
        SendRequest sshConn (ReqType greeting) (WantReply greeting) (Payload greeting) in
      if is_error err || negb ok
      then (peer, [log_Println "debug: failed to greet:"; conn_Close])
      else
        let '(peer, done) := ssh_acceptChannels chans peer in
        (peer, done ++ [conn_Close])
  end.

End Listener.

(** ** ssh keys: [loadPrivateKey] *)

(** A call that returns, or a run-time panic. *)
Inductive outcome (A : Type) : Type :=
  | Returns (a : A)
  | Panics (msg : string).
Arguments Returns {A} a.
Arguments Panics {A} msg.

(** [strings.Replace(s, old, new, 1)]: the first occurrence of [old] in [s]
    replaced by [new]. *)
Fixpoint strings_Replace_1 (s old new : string) : string :=
  if String.prefix old s
  then new +:+ String.substring (String.length old) (String.length s) s
  else match s with
       | EmptyString => EmptyString
       | String a s' => String a (strings_Replace_1 s' old new)
       end.

Section Keys.
Context {S : Type}.

(** [user.Current()]: the home directory of the current user, or an error;
    [ioutil.ReadFile] and [ssh.ParsePrivateKey]. *)
Variable user_Current : result string.
Variable ioutil_ReadFile : string -> result (list byte).
Variable ssh_ParsePrivateKey : list byte -> result S.

(** [path[:2]] panics on a path of fewer than two bytes.  The error of
    [user.Current()] is dropped: when there is one, [usr] is nil and
    [usr.HomeDir] panics. *)
Definition loadPrivateKey (path : string) : outcome (result S) :=
  if (String.length path <? 2)%nat
  then Panics "slice bounds out of range"
  else
    let expanded :=
      if String.eqb (String.substring 0 2 path) "~/"
      then match user_Current with
           | Ok HomeDir => Returns (strings_Replace_1 path "~" HomeDir)
           | Err _ => Panics "invalid memory address or nil pointer dereference"
           end
      else Returns path in
    match expanded with
    | Panics msg => Panics msg
    | Returns path =>
        match ioutil_ReadFile path with
        | Err err => Returns (Err err)
        | Ok pem => Returns (ssh_ParsePrivateKey pem)
        end
    end.

End Keys.

(** ** ssh client: [newPeerConnection_ssh] *)

(** What the goroutine serving the out-of-band requests does, in order. *)
Inductive served : Type :=
  | Replied (r : ssh_Request) (ok : bool) (* r.Reply(ok, nil) *)
  | Handed (name : string)  (* nameCh <- name, taken by the dialer *)
  | Stuck (name : string).  (* nameCh <- name with nobody left to take it *)

Record ssh_ClientConfig (S : Type) := {
  config_User : string;
  config_Auth : list S
}.
Arguments config_User {S} _.
Arguments config_Auth {S} _.

Section Dial.
Context {T S : Type} `{ssh_Codec ssh_greetingPayload}.

(** The current user, the file system and the key parser that
    [loadPrivateKey] uses; [net.Dial] and [ssh.NewClientConn] are the
    network's and the transport's. *)
Variable user_Current : result string.
Variable ioutil_ReadFile : string -> result (list byte).
Variable ssh_ParsePrivateKey : list byte -> result S.
Variable net_Dial : string -> string -> result net_Conn.
Variable NewClientConn :
  net_Conn -> string -> ssh_ClientConfig S ->
  result (ssh_Conn * list (ssh_NewChannel T) * list ssh_Request).

(** The loop [for r := range reqs].  [nameCh] is unbuffered and the dialer
    receives from it once: [taken] tells whether it has.  A send after that
    never completes, and the loop goes no further. *)
Fixpoint serve_requests (taken : bool) (reqs : list ssh_Request) : list served :=
  match reqs with
  | [] => []
  | r :: reqs' =>
      if String.eqb (ReqType r) "@duplex-greeting"
      then
        let '(err, greeting) := Unmarshal (Payload r) {| Name := "" |} in
        match err with
        | Some _ => serve_requests taken reqs'
        | None =>
            if taken then [Stuck (Name greeting)]
            else Handed (Name greeting) :: Replied r true :: serve_requests true reqs'
        end
      else Replied r false :: serve_requests taken reqs'
  end.

(** [name := <-nameCh]: the first name handed over; [None] when none ever is
    and the dialer waits for ever. *)
Fixpoint nameCh_recv (trace : list served) : option string :=
  match trace with
  | [] => None
  | Handed name :: _ => Some name
  | _ :: trace' => nameCh_recv trace'
  end.

(** The call panics where [loadPrivateKey] does.  [Returns None]: the call
    neither panics nor returns, it waits for a name for ever.  The dispatch
    loop it starts with [go ssh_acceptChannels(chans, peer)] runs on after
    the return. *)
Definition newPeerConnection_ssh (peer : Peer T) (network address : string)
  : outcome (option (result ssh_peerConnection)) :=
  match loadPrivateKey user_Current ioutil_ReadFile ssh_ParsePrivateKey
          (GetOption peer OptPrivateKey) with
  | Panics msg => Panics msg
  | Returns (Err e) => Returns (Some (Err e))
  | Returns (Ok pk) =>
      let config := {| config_User := GetOption peer OptName; config_Auth := [pk] |} in
      match net_Dial network address with
      | Err e => Returns (Some (Err e))
      | Ok netConn =>
          match NewClientConn netConn address config with
          | Err e => Returns (Some (Err e))
          | Ok (sshConn, chans, reqs) =>
              match nameCh_recv (serve_requests false reqs) with
              | None => Returns None
              | Some name =>
                  Returns (Some (Ok {| addr := network +:+ "://" +:+ address;
                                       name := name;
                                       conn := sshConn |}))
              end
          end
      end
  end.

End Dial.

(** *** The dial and its request loop, side by side

    After the hand-over on [nameCh] the dialer and the request loop run on
    independently: the dialer starts the dispatch loop and returns, the
    request loop sends its reply and serves the requests that follow. *)
Inductive dial_event : Type :=
  | Served (e : served)
  | dial_Returned (c : ssh_peerConnection).

(** The events of a dial whose request loop leaves the trace [trace]; the
    dialer returns [mk name] after the request loop has done [k] more things
    since the hand-over.  Without a hand-over the dialer never returns. *)
Fixpoint dial_events (k : nat) (mk : string -> ssh_peerConnection)
  (trace : list served) : list dial_event :=
  match trace with
  | [] => []
  | Handed name :: rest =>
      Served (Handed name) :: map Served (firstn k rest)
      ++ dial_Returned (mk name) :: map Served (skipn k rest)
  | e :: rest => Served e :: dial_events k mk rest
  end.

(** What the acceptor's [SendRequest] comes back with when the request loop
    of a dialer has left [trace] on the request: the reply, or an error when
    the connection goes down with the request unanswered. *)
Fixpoint reply_in (trace : list served) : bool * list byte * option error :=
  match trace with
  | [] => (false, [], Some (errors_New "ssh: disconnected"))
  | Replied _ ok :: _ => (ok, [], None)
  | _ :: trace' => reply_in trace'
  end.

(** The acceptor's end of a fresh session with a dialer, as [ssh.Conn]: the
    user name is the one of the dialer's handshake, and a request sent
    arrives at the dialer's request loop, which has not handed over a name
    yet. *)
Definition dialer_end `{ssh_Codec ssh_greetingPayload} (user : string) : ssh_Conn :=
  {| User := user;
     SendRequest := fun name wantReply payload =>
       reply_in (serve_requests false
                   [{| ReqType := name; WantReply := wantReply; Payload := payload |}]) |}.

(** ** Data for the closed examples *)

Definition ping : list byte := ["p"; "i"; "n"; "g"]%byte.

(** The listening peer of the end-to-end scenario; channels are named by the
    number of the open that created them. *)
Definition alice : Peer nat :=
  {| options := fun o => match o with
                         | OptName => "alice"
                         | OptPrivateKey => "~/.ssh/id_rsa"
                         end;
     conns := ∅;
     incomingCh := [] |}.

Definition bob : Peer nat :=
  {| options := fun o => match o with
                         | OptName => "bob"
                         | OptPrivateKey => "~/.ssh/id_rsa"
                         end;
     conns := ∅;
     incomingCh := [] |}.

(** What [Open(service, headers)] makes arrive at the other side, as open
    number [id]; the transport will accept it. *)
Definition open_duplex (id : nat) (service : string) (headers : list string)
  : ssh_NewChannel nat :=
  {| nc_id := id; ChannelType := "@duplex";
     ExtraData := Marshal {| Service := service; Headers := headers |};
     nc_Accept := Ok id |}.


(** An open of a type that is not the protocol's. *)
Definition open_session (id : nat) : ssh_NewChannel nat :=
  {| nc_id := id; ChannelType := "session"; ExtraData := []; nc_Accept := Ok id |}.

(** A raw connection from bob's machine. *)
Definition from_bob : net_Conn :=
  {| RemoteAddr_Network := "tcp"; RemoteAddr_String := "10.0.0.2:4242" |}.

(** A session whose remote end refuses every request. *)
Definition refusing : ssh_Conn :=
  {| User := "bob"; SendRequest := fun _ _ _ => (false, [], None) |}.

(** A session whose remote end grants every request. *)
Definition granting : ssh_Conn :=
  {| User := "alice"; SendRequest := fun _ _ _ => (true, [], None) |}.

(** A handshake that succeeds with session [c] and inbound traffic [chans]
    and [reqs]. *)
Definition handshake_gives {A B : Type} (c : ssh_Conn)
  (chans : list (ssh_NewChannel nat)) (reqs : list ssh_Request)
  : A -> B -> result (ssh_Conn * list (ssh_NewChannel nat) * list ssh_Request) :=
  fun _ _ => Ok (c, chans, reqs).

Definition handshake_then {A B C : Type} (c : ssh_Conn)
  (chans : list (ssh_NewChannel nat)) (reqs : list ssh_Request)
  : A -> B -> C -> result (ssh_Conn * list (ssh_NewChannel nat) * list ssh_Request) :=
  fun _ _ _ => Ok (c, chans, reqs).

(** The raw connection of a dial to alice's address. *)
Definition to_alice : net_Conn :=
  {| RemoteAddr_Network := "tcp"; RemoteAddr_String := "10.0.0.1:22" |}.

(** A machine with a known user and one key file, whose contents are the
    key, and a network where every dial gets through. *)
Definition the_user : result string := Ok "/home/bob".
Definition key_file : string -> result (list byte) :=
  fun path => if String.eqb path "/home/bob/.ssh/id_rsa"
              then Ok [x01; x02]%byte
              else Err (errors_New "no such file or directory").
Definition parse_key : list byte -> result (list byte) := fun pem => Ok pem.
Definition dial_through : string -> string -> result net_Conn := fun _ _ => Ok to_alice.

Definition keepalive : ssh_Request :=
  {| ReqType := "keepalive@openssh.com"; WantReply := true; Payload := [] |}.

(** A schedule for two opens: the first goroutine decodes, checks and accepts;
    the loop receives the second open, whose goroutine decodes; then the
    first goroutine pushes its channel, and the second one runs to its end. *)
Definition racy_schedule : list thread :=
  [Loop; Go 0; Go 0; Go 0; Loop; Go 1; Go 0; Go 1; Go 1; Go 1]%nat.

(** Two opens are received before the goroutine of the first one takes its
    first step. *)
Definition late_schedule : list thread :=
  [Loop; Loop; Go 0; Go 0]%nat.

(** The goroutine of the first open decodes and checks; the second open is
    received; then the goroutine accepts and pushes. *)
Definition overtaken_schedule : list thread :=
  [Loop; Go 0; Go 0; Loop; Go 0; Go 0]%nat.

(** Every goroutine runs to its end before the next open is received. *)
Definition calm_schedule : list thread :=
  [Loop; Go 0; Go 0; Go 0; Go 0; Loop; Go 1; Go 1; Go 1; Go 1]%nat.

(** ** Callers' loops over the frame codec

    A writer that sends one frame after the other, and a reader that takes
    [n] frames, each with one call. *)

Section Frame_sequences.
Context {T : Type} `{ssh_Channel T}.

Fixpoint WriteFrames (c : ssh_channel T) (frames : list (list byte))
  : list (option error) * ssh_channel T :=
  match frames with
  | [] => ([], c)
  | frame :: frames' =>
      let '(err, c) := WriteFrame c frame in
      let '(errs, c) := WriteFrames c frames' in
      (err :: errs, c)
  end.

Fixpoint ReadFrames (n : nat) (c : ssh_channel T)
  : list (result (list byte)) * ssh_channel T :=
  match n with
  | O => ([], c)
  | S n' =>
      let '(r, c) := ReadFrame c in
      let '(rs, c) := ReadFrames n' c in
      (r :: rs, c)
  end.

End Frame_sequences.

(** ** Reading the effects of the dispatch loop *)

(** [newCh.ChannelType() == "@duplex"] *)
Definition is_duplex {T} (newCh : ssh_NewChannel T) : bool :=
  String.eqb (ChannelType newCh) "@duplex".

Definition is_Accepted (e : effect) : bool :=
  match e with
  | Accepted _ => true
  | _ => false
  end.

(** The three ways the handling of one open ends: a rejection, an accept, or
    the logged failure of an accept. *)
Definition is_outcome (e : effect) : bool :=
  match e with
  | Reject _ _ _ | Accepted _ | log_Println _ => true
  | _ => false
  end.

(** The open an effect of the dispatch loop is about. *)
Definition effect_id (e : effect) : option nat :=
  match e with
  | Reject id _ _ | Accepted id | DiscardRequests id => Some id
  | _ => None
  end.

(** A schedule for two opens: the first goroutine decodes, checks and accepts;
    the second open is received and decoded; the first goroutine pushes; the
    second goroutine checks. *)
Definition racy_schedule_check : list thread :=
  [Loop; Go 0; Go 0; Go 0; Loop; Go 1; Go 0; Go 1]%nat.

(** ** What holds of the dispatch loop under every schedule *)

Definition is_returned {T} (g : @goroutine T) : bool :=
  match at_pc g with
  | Returned => true
  | _ => false
  end.

(** [ch] is the channel the transport gave for an open of the run; with one
    [newCh] per iteration, for an [@duplex] open. *)
Definition from_open {T} (lv : loopvar) (chans : list (ssh_NewChannel T)) (ch : T)
  : Prop :=
  exists newCh, In newCh chans /\ nc_Accept newCh = Ok ch /\
                (lv = PerIteration -> is_duplex newCh = true).

(** The state of a run over the opens [chans] that started from [peer0]. *)
Definition dispatch_invariant {T} (lv : loopvar) (chans : list (ssh_NewChannel T))
  (peer0 : Peer T) (st : accept_state) : Prop :=
  (length (st_gos st) + length (List.filter is_duplex (st_chans st))
   = length (List.filter is_duplex chans))%nat /\
  (forall c, In c (st_chans st) -> In c chans) /\
  (forall c, st_newCh st = Some c -> In c chans) /\
  Forall (fun g => In (own_newCh g) chans /\ is_duplex (own_newCh g) = true /\
                   forall ch, at_pc g = AtPush ch -> from_open lv chans ch)
    (st_gos st) /\
  exists added,
    incomingCh (st_peer st) = incomingCh peer0 ++ added /\
    Forall (fun c => from_open lv chans (Channel c)) added /\
    (length added <= length (List.filter is_returned (st_gos st)))%nat /\
    conns (st_peer st) = conns peer0 /\
    options (st_peer st) = options peer0.

(** Every reply and every discard of the run is about an [@duplex] open of
    [chans]. *)
Definition only_duplex_answered {T} (chans : list (ssh_NewChannel T))
  (st : accept_state) : Prop :=
  (forall c, In c (st_chans st) -> In c chans) /\
  Forall (fun g => In (own_newCh g) chans /\ is_duplex (own_newCh g) = true)
    (st_gos st) /\
  Forall (fun e => forall id, effect_id e = Some id ->
                   exists newCh, In newCh chans /\ is_duplex newCh = true /\
                                 nc_id newCh = id)
    (st_done st).

(** ** Reading the trace of the request loop *)

(** [r.Type == "@duplex-greeting"] *)
Definition is_greeting (r : ssh_Request) : bool :=
  String.eqb (ReqType r) "@duplex-greeting".

(** The name a request carries when it is a greeting whose payload decodes. *)
Definition greeting_name `{ssh_Codec ssh_greetingPayload} (r : ssh_Request)
  : option string :=
  if is_greeting r
  then match Unmarshal (Payload r) {| Name := "" |} with
       | (None, greeting) => Some (Name greeting)
       | (Some _, _) => None
       end
  else None.

(** A negative reply to each request that is no greeting, in order. *)
Definition refusals (reqs : list ssh_Request) : list served :=
  map (fun r => Replied r false) (List.filter (fun r => negb (is_greeting r)) reqs).

Definition is_Handed (e : served) : bool :=
  match e with
  | Handed _ => true
  | _ => false
  end.

Definition is_granted (e : served) : bool :=
  match e with
  | Replied _ true => true
  | _ => false
  end.

Definition is_Stuck (e : served) : bool :=
  match e with
  | Stuck _ => true
  | _ => false
  end.

(** ** ssh connection: [Open] *)

Section Open.
Context {T : Type} `{ssh_Codec ssh_channelData}.

(** [c.conn.OpenChannel(name, data)]: the transport asks the remote side for
    a sub-channel and waits for its answer. *)
Variable OpenChannel : ssh_Conn -> string -> list byte -> result (T * list ssh_Request).

(** The requests on the new channel are discarded by a goroutine of the
    transport's. *)
Definition Open (c : ssh_peerConnection) (service : string) (headers : list string)
  : result (ssh_channel T) :=
  let meta := {| Service := service; Headers := headers |} in
  match OpenChannel (conn c) "@duplex" (Marshal meta) with
  | Err err => Err err
  | Ok (ch, reqs) => Ok {| Channel := ch; channelData := meta |}
  end.

End Open.

(** ** ssh server: [newPeerListener_ssh] *)

(** [ssh.ServerConfig]: the authentication callback and the host keys. *)
Record ssh_ServerConfig (K S : Type) := {
  config_PublicKeyCallback : string -> K -> result ssh_Permissions;
  config_HostKeys : list S
}.
Arguments config_PublicKeyCallback {K S} _.
Arguments config_HostKeys {K S} _.

(** What the listener does to the outside: [os.Remove(name)], the handling
    of one accepted connection with its effects, and [peer.Unbind(endpoint)].
    Modelled from the spec: [Unbind] is a method of [Peer], declared in
    another file of the package; it takes the listener of that endpoint off
    the peer.  Here the call is recorded. *)
Inductive listen_effect : Type :=
  | os_Remove (name : string)
  | handled (netConn : net_Conn) (done : list effect)
  | peer_Unbind (endpoint : string).

(** The connections [listener.Accept()] gave before its first error. *)
Fixpoint accepted_before_error (accepts : list (result net_Conn)) : list net_Conn :=
  match accepts with
  | Ok netConn :: accepts' => netConn :: accepted_before_error accepts'
  | _ => []
  end.

(** Whether [listener.Accept()] ever returned an error. *)
Fixpoint accept_failed (accepts : list (result net_Conn)) : bool :=
  match accepts with
  | [] => false
  | Err _ :: _ => true
  | Ok _ :: accepts' => accept_failed accepts'
  end.

(** The connections the listener handled, in order. *)
Fixpoint handled_conns (effs : list listen_effect) : list net_Conn :=
  match effs with
  | [] => []
  | handled netConn _ :: effs' => netConn :: handled_conns effs'
  | _ :: effs' => handled_conns effs'
  end.

Definition is_os_Remove (e : listen_effect) : bool :=
  match e with
  | os_Remove _ => true
  | _ => false
  end.

Definition is_peer_Unbind (e : listen_effect) : bool :=
  match e with
  | peer_Unbind _ => true
  | _ => false
  end.

Section Listen.
Context {T K S L : Type} `{ssh_Codec ssh_greetingPayload} `{ssh_Codec ssh_channelData}
        `{ssh_PublicKey K} `{ssh_Signer S K}.

(** The current user, the file system and the key parser that
    [loadPrivateKey] uses; [net.Listen] with the listener it gives, and the
    handshake. *)
Variable user_Current : result string.
Variable ioutil_ReadFile : string -> result (list byte).
Variable ssh_ParsePrivateKey : list byte -> result S.
Variable net_Listen : string -> string -> result L.
Variable NewServerConn :
  net_Conn -> ssh_ServerConfig K S ->
  result (ssh_Conn * list (ssh_NewChannel T) * list ssh_Request).

(** The goroutine [for { conn, err := listener.Accept(); ... }], every
    connection handled to its end before the next one is accepted.
    [accepts] is what [listener.Accept()] returns, call after call; when it
    runs out the loop waits in [Accept]. *)
Fixpoint accept_conns (accepts : list (result net_Conn))
  (config : ssh_ServerConfig K S) (peer : Peer T) (typ address : string)
  : Peer T * list listen_effect :=
  match accepts with
  | [] => (peer, [])
  | Err _ :: _ => (peer, [peer_Unbind (typ +:+ "://" +:+ address)])
  | Ok netConn :: accepts' =>
      let '(peer, done) :=
        ssh_handleConn (ssh_ServerConfig K S) NewServerConn netConn config peer in
      let '(peer, rest) := accept_conns accepts' config peer typ address in
      (peer, handled netConn done :: rest)
  end.

(** The call panics where [loadPrivateKey] does.  It returns as soon as the
    listener is bound; the peer and the effects given with its result are
    those of the accept loop it leaves running. *)
Definition newPeerListener_ssh (accepts : list (result net_Conn)) (peer : Peer T)
  (typ address : string) : outcome (result L * Peer T * list listen_effect) :=
  match loadPrivateKey user_Current ioutil_ReadFile ssh_ParsePrivateKey
          (GetOption peer OptPrivateKey) with
  | Panics msg => Panics msg
  | Returns (Err err) => Returns (Err err, peer, [])
  | Returns (Ok pk) =>
      let config :=
        {| config_PublicKeyCallback := PublicKeyCallback pk;
           config_HostKeys := [pk] |} in
      let removed := if String.eqb typ "unix" then [os_Remove address] else [] in
      match net_Listen typ address with
      | Err err => Returns (Err err, peer, removed)
      | Ok listener =>
          let '(peer, done) := accept_conns accepts config peer typ address in
          Returns (Ok listener, peer, removed ++ done)
      end
  end.

End Listen.

(** * Part II: properties *)

(** ** Facts about bytes and the length prefix *)

Lemma byte_to_Z_range (b : byte) : 0 <= byte_to_Z b < 256.
Proof.
  unfold byte_to_Z. pose proof (Byte.to_N_bounded b). lia.
Qed.

Lemma byte_to_of_Z (z : Z) : byte_to_Z (byte_of_Z z) = z mod 256.
Proof.
  unfold byte_to_Z, byte_of_Z.
  assert (Hr : 0 <= z mod 256 < 256) by (apply Z.mod_pos_bound; lia).
  destruct (Byte.of_N (Z.to_N (z mod 256))) as [b|] eqn:E.
  - apply Byte.to_of_N in E. rewrite E. lia.
  - apply Byte.of_N_None_iff in E. lia.
Qed.

Lemma byte_of_to_Z (b : byte) : byte_of_Z (byte_to_Z b) = b.
Proof.
  unfold byte_of_Z. pose proof (byte_to_Z_range b) as Hr.
  rewrite Z.mod_small by lia. unfold byte_to_Z.
  rewrite N2Z.id, Byte.of_to_N. reflexivity.
Qed.

Lemma uint32_range (z : Z) : 0 <= uint32 z < 2 ^ 32.
Proof. unfold uint32. apply Z.mod_pos_bound. lia. Qed.

Lemma uint32_small (z : Z) : 0 <= z < 2 ^ 32 -> uint32 z = z.
Proof. unfold uint32. intros. apply Z.mod_small. lia. Qed.

(** The four bytes [byte(n>>24), byte(n>>16), byte(n>>8), byte(n)] of a 32-bit
    [n] are put together again by the shifts and ors of [Uint32]. *)
Lemma lor_of_shifted_bytes (n : Z) :
  0 <= n < 2 ^ 32 ->
  Z.lor (Z.lor (Z.lor (n mod 256) (Z.shiftl (Z.shiftr n 8 mod 256) 8))
               (Z.shiftl (Z.shiftr n 16 mod 256) 16))
        (Z.shiftl (Z.shiftr n 24 mod 256) 24) = n.
Proof.
  intros Hn. apply Z.bits_inj'. intros k Hk.
  change 256 with (2 ^ 8).
  rewrite !Z.lor_spec, !Z.shiftl_spec by lia.
  rewrite !Z.testbit_mod_pow2 by lia.
  assert (Hhi : 32 <= k -> Z.testbit n k = false).
  { intros Hge. rewrite <- (Z.mod_small n (2 ^ 32)) by lia.
    apply Z.mod_pow2_bits_high. lia. }
  destruct (Z.ltb_spec k 8) as [H8|H8].
  - rewrite (Z.testbit_neg_r _ (k - 8)), (Z.testbit_neg_r _ (k - 16)),
      (Z.testbit_neg_r _ (k - 24)) by lia.
    rewrite !Bool.andb_false_r, !Bool.orb_false_r. reflexivity.
  - cbn [andb orb].
    destruct (Z.ltb_spec (k - 8) 8) as [H16|H16].
    + rewrite Z.shiftr_spec by lia.
      rewrite (Z.testbit_neg_r _ (k - 16)), (Z.testbit_neg_r _ (k - 24)) by lia.
      rewrite !Bool.andb_false_r, !Bool.orb_false_r. cbn [andb].
      f_equal. lia.
    + cbn [andb orb].
      destruct (Z.ltb_spec (k - 16) 8) as [H24|H24].
      * rewrite Z.shiftr_spec by lia.
        rewrite (Z.testbit_neg_r _ (k - 24)) by lia.
        rewrite !Bool.andb_false_r, !Bool.orb_false_r. cbn [andb].
        f_equal. lia.
      * cbn [andb orb].
        destruct (Z.ltb_spec (k - 24) 8) as [H32|H32].
        -- rewrite Z.shiftr_spec by lia. cbn [andb]. f_equal. lia.
        -- cbn [andb]. symmetry. apply Hhi. lia.
Qed.

Lemma Uint32_of_prefix (n : Z) (rest : list byte) :
  0 <= n < 2 ^ 32 ->
  BigEndian_Uint32 (byte_of_Z (Z.shiftr n 24) :: byte_of_Z (Z.shiftr n 16)
                    :: byte_of_Z (Z.shiftr n 8) :: byte_of_Z n :: rest) = Some n.
Proof.
  intros Hn. unfold BigEndian_Uint32. rewrite !byte_to_of_Z.
  f_equal. apply lor_of_shifted_bytes. exact Hn.
Qed.

Lemma skipn_make (k n : nat) : skipn k (make n) = make (n - k).
Proof.
  unfold make. revert n. induction k as [|k IH]; intros n.
  - rewrite Nat.sub_0_r. reflexivity.
  - destruct n as [|n]; [reflexivity|]. cbn [repeat skipn]. apply IH.
Qed.

Lemma make_length (n : nat) : length (make n) = n.
Proof. unfold make. apply repeat_length. Qed.

Lemma stored_length (buf data : list byte) : length (stored buf data) = length buf.
Proof.
  unfold stored. rewrite length_app, length_take, length_drop. lia.
Qed.

(** A full read overwrites the whole slice. *)
Lemma stored_full (buf data : list byte) :
  length data = length buf -> stored buf data = data.
Proof.
  intros E. unfold stored. rewrite <- E, firstn_all, drop_ge by lia.
  apply app_nil_r.
Qed.

(** A short read leaves the tail of the slice as it was. *)
Lemma stored_short (buf data : list byte) :
  (length data <= length buf)%nat ->
  stored buf data = data ++ skipn (length data) buf.
Proof.
  intros Hle. unfold stored. rewrite take_ge by lia. reflexivity.
Qed.

Lemma WriteFrame_buffer_eq (frame : list byte) :
  let n := uint32 (len frame) in
  WriteFrame_buffer frame
  = byte_of_Z (Z.shiftr n 24) :: byte_of_Z (Z.shiftr n 16)
    :: byte_of_Z (Z.shiftr n 8) :: byte_of_Z n :: frame.
Proof. reflexivity. Qed.

Lemma shifted_byte_is_digit (n k : Z) :
  0 <= k -> byte_of_Z (Z.shiftr n (8 * k)) = byte_of_Z (n / 256 ^ k).
Proof.
  intros Hk. rewrite Z.shiftr_div_pow2 by lia.
  change 256 with (2 ^ 8). rewrite <- Z.pow_mul_r by lia. reflexivity.
Qed.

(** The prefix the code builds with shifts is the 4-digit base-256 numeral. *)
Lemma WriteFrame_buffer_big_endian (frame : list byte) :
  WriteFrame_buffer frame = big_endian_4 (uint32 (len frame)) ++ frame.
Proof.
  rewrite WriteFrame_buffer_eq. cbv zeta. unfold big_endian_4.
  rewrite <- (shifted_byte_is_digit _ 3), <- (shifted_byte_is_digit _ 2) by lia.
  replace (uint32 (len frame) / 256) with (uint32 (len frame) / 256 ^ 1)
    by (f_equal; lia).
  rewrite <- (shifted_byte_is_digit _ 1) by lia.
  reflexivity.
Qed.

Lemma big_endian_4_value (n : Z) :
  0 <= n < 2 ^ 32 -> big_endian_value (big_endian_4 n) = n.
Proof.
  intros Hn. unfold big_endian_value, big_endian_4. cbn [fold_left].
  rewrite !byte_to_of_Z.
  change (256 ^ 3) with (256 * (256 * 256)). change (256 ^ 2) with (256 * 256).
  rewrite <- !Z.div_div by lia.
  pose proof (Z.div_mod n 256 ltac:(lia)) as E0.
  pose proof (Z.mod_pos_bound n 256 ltac:(lia)) as B0.
  set (q1 := n / 256) in *.
  pose proof (Z.div_mod q1 256 ltac:(lia)) as E1.
  pose proof (Z.mod_pos_bound q1 256 ltac:(lia)) as B1.
  set (q2 := q1 / 256) in *.
  pose proof (Z.div_mod q2 256 ltac:(lia)) as E2.
  pose proof (Z.mod_pos_bound q2 256 ltac:(lia)) as B2.
  set (q3 := q2 / 256) in *.
  assert (H3 : 0 <= q3 < 256) by lia.
  rewrite (Z.mod_small q3) by lia. lia.
Qed.

(** *** The wire encoding of a string *)

Lemma parseString_marshal_string (s rest : list byte) :
  len s + len rest < 2 ^ 32 ->
  parseString (marshal_string s ++ rest) = Some (s, rest).
Proof.
  intros Hlen. unfold len in Hlen.
  assert (Hs : 0 <= len s < 2 ^ 32) by (unfold len; lia).
  unfold parseString, marshal_string, appendU32. rewrite (uint32_small _ Hs).
  cbn [app]. rewrite Uint32_of_prefix by exact Hs. cbn [skipn]. rewrite !drop_0.
  rewrite uint32_small by (unfold len; rewrite length_app; lia).
  destruct (Z.ltb_spec (len (s ++ rest)) (len s)) as [Hlt|_].
  - unfold len in Hlt. rewrite length_app in Hlt. lia.
  - unfold len. rewrite Nat2Z.id, take_app_length, drop_app_length. reflexivity.
Qed.

(** The greeting decodes to what was encoded, whatever the variable decoded
    into held before. *)
Lemma greeting_round_trip (g out : ssh_greetingPayload) :
  len (String.list_byte_of_string (Name g)) < 2 ^ 32 ->
  Unmarshal (Marshal g) out = (None, g).
Proof.
  intros Hlen. destruct g as [n]. cbn [Unmarshal Marshal greeting_Codec Name] in *.
  rewrite <- (app_nil_r (marshal_string _)).
  rewrite parseString_marshal_string
    by (change (len (@nil byte)) with 0; lia).
  rewrite String.string_of_list_byte_of_string. reflexivity.
Qed.

(** *** Reading from the in-memory channel *)

Lemma pipe_read_0 (bs : list (list byte)) : pipe_read bs 0 = ([], None, Pipe bs).
Proof. destruct bs; reflexivity. Qed.

Lemma pipe_read_header (b0 b1 b2 b3 : byte) (payload : list byte)
  (rest : list (list byte)) :
  pipe_read ((b0 :: b1 :: b2 :: b3 :: payload) :: rest) 4
  = ([b0; b1; b2; b3], None,
     Pipe (match payload with [] => rest | _ => payload :: rest end)).
Proof. destruct payload; reflexivity. Qed.

Lemma pipe_read_whole (payload : list byte) (rest : list (list byte)) :
  payload <> [] ->
  pipe_read (payload :: rest) (length payload) = (payload, None, Pipe rest).
Proof.
  destruct payload as [|b payload]; [congruence|]. intros _.
  cbn [pipe_read length]. rewrite Nat.leb_refl.
  change (S (length payload)) with (length (b :: payload)).
  rewrite firstn_all. reflexivity.
Qed.

(** *** [ReadFrame] on any transport *)

Section ReadFrame_facts.
Context {T : Type} `{ssh_Channel T}.

(** The slice for the length always has its four bytes. *)
Lemma length_bytes_decodable (got : list byte) :
  exists n, BigEndian_Uint32 (stored (make 4) got) = Some n.
Proof.
  pose proof (stored_length (make 4) got) as L. rewrite make_length in L.
  destruct (stored (make 4) got) as [|b0 [|b1 [|b2 [|b3 l]]]]; try discriminate.
  eexists. reflexivity.
Qed.

(** Two calls of [Read], whatever they bring: the caller gets a slice of the
    declared length that holds what the second call stored, and zeroes after. *)
Lemma ReadFrame_two_reads (c : ssh_channel T) (hdr body : list byte) (t1 t2 : T)
  (n : Z) :
  Read (Channel c) 4 = (hdr, None, t1) ->
  BigEndian_Uint32 (stored (make 4) hdr) = Some n ->
  Read t1 (Z.to_nat n) = (body, None, t2) ->
  ReadFrame c = (Ok (stored (make (Z.to_nat n)) body), with_Channel c t2).
Proof.
  intros R1 D R2. unfold ReadFrame. rewrite R1. cbv zeta. rewrite D, R2.
  reflexivity.
Qed.

Lemma ReadFrame_first_error (c : ssh_channel T) (hdr : list byte) (t1 : T)
  (e : error) :
  Read (Channel c) 4 = (hdr, Some e, t1) ->
  ReadFrame c = (Err e, with_Channel c t1).
Proof. intros R1. unfold ReadFrame. rewrite R1. reflexivity. Qed.

End ReadFrame_facts.

(** *** Frames through the in-memory channel *)

Lemma WriteFrame_pipe (m : ssh_channelData) (bs : list (list byte))
  (frame : list byte) :
  WriteFrame {| Channel := Pipe bs; channelData := m |} frame
  = (None, {| Channel := Pipe (bs ++ [WriteFrame_buffer frame]); channelData := m |}).
Proof. reflexivity. Qed.

(** A frame that arrived whole is read back, and the bursts after it stay. *)
Lemma ReadFrame_pipe_whole (m : ssh_channelData) (frame : list byte)
  (rest : list (list byte)) :
  len frame < 2 ^ 32 ->
  ReadFrame {| Channel := Pipe (WriteFrame_buffer frame :: rest); channelData := m |}
  = (Ok frame, {| Channel := Pipe rest; channelData := m |}).
Proof.
  intros Hlen.
  assert (Hn : uint32 (len frame) = len frame) by (apply uint32_small; unfold len in *; lia).
  rewrite WriteFrame_buffer_eq. cbv zeta. rewrite Hn.
  set (b0 := byte_of_Z _). set (b1 := byte_of_Z _). set (b2 := byte_of_Z _).
  set (b3 := byte_of_Z _).
  rewrite (ReadFrame_two_reads _ [b0; b1; b2; b3] frame
             (Pipe (match frame with [] => rest | _ => frame :: rest end))
             (Pipe rest) (len frame)).
  - unfold len. rewrite Nat2Z.id, stored_full by (symmetry; apply make_length).
    reflexivity.
  - apply pipe_read_header.
  - rewrite stored_full by reflexivity. subst b0 b1 b2 b3.
    apply Uint32_of_prefix. unfold len in *. lia.
  - unfold len. rewrite Nat2Z.id. destruct frame as [|b frame].
    + apply pipe_read_0.
    + apply (pipe_read_whole (b :: frame)). discriminate.
Qed.

(** When the 32-bit length of a non-empty payload wraps to zero, the reader
    takes the frame for an empty one. *)
Lemma ReadFrame_pipe_wrapped (m : ssh_channelData) (frame : list byte) :
  uint32 (len frame) = 0 -> frame <> [] ->
  ReadFrame {| Channel := Pipe [WriteFrame_buffer frame]; channelData := m |}
  = (Ok [], {| Channel := Pipe [frame]; channelData := m |}).
Proof.
  intros Hn Hne. rewrite WriteFrame_buffer_eq. cbv zeta. rewrite Hn.
  set (b0 := byte_of_Z _).
  rewrite (ReadFrame_two_reads _ [b0; b0; b0; b0] [] (Pipe [frame]) (Pipe [frame]) 0).
  - reflexivity.
  - cbn [Read pipe_Channel Channel bursts]. rewrite pipe_read_header.
    destruct frame; [congruence | reflexivity].
  - reflexivity.
  - reflexivity.
Qed.

(** C1, as amended: for every payload P shorter than 2^32 bytes, WriteFrame
    hands the transport, in one Write and with no error of its own, exactly
    the 4-byte big-endian encoding of len(P) followed by P; and when these
    bytes reach the reader whole, ReadFrame yields P unchanged and leaves
    nothing behind.  The empty payload is included. *)
Theorem C1_frame_round_trip (m : ssh_channelData) (P : list byte) :
  len P < 2 ^ 32 ->
  let c := {| Channel := Pipe []; channelData := m |} in
  fst (WriteFrame c P) = None /\
  wire (Channel (snd (WriteFrame c P))) = big_endian_4 (len P) ++ P /\
  big_endian_value (big_endian_4 (len P)) = len P /\
  ReadFrame (snd (WriteFrame c P)) = (Ok P, c).
Proof.
  intros Hlen c. subst c. rewrite WriteFrame_pipe. cbn [fst snd app Channel].
  assert (Hr : 0 <= len P < 2 ^ 32) by (unfold len in *; lia).
  repeat split.
  - unfold wire. cbn [bursts concat]. rewrite app_nil_r.
    rewrite WriteFrame_buffer_big_endian, uint32_small by exact Hr. reflexivity.
  - apply big_endian_4_value. exact Hr.
  - apply ReadFrame_pipe_whole. exact Hlen.
Qed.

Lemma C1_frame_round_trip_witness :
  len ping < 2 ^ 32 /\
  ReadFrame (snd (WriteFrame {| Channel := Pipe []; channelData := zero_meta |} ping))
  = (Ok ping, {| Channel := Pipe []; channelData := zero_meta |}).
Proof.
  split; [reflexivity|].
  apply (C1_frame_round_trip zero_meta ping). reflexivity.
Defined.

(** C1 as stated fails for a payload of 2^32 bytes: the prefix on the wire is
    four zero bytes, which is not an encoding of the payload's length, and
    ReadFrame yields the empty payload. *)
Lemma C1_counterexample :
  let P := repeat x00 (Nat.pow 2 32) in
  let c := {| Channel := Pipe []; channelData := zero_meta |} in
  len P = 2 ^ 32 /\
  firstn 4 (wire (Channel (snd (WriteFrame c P)))) = [x00; x00; x00; x00] /\
  fst (ReadFrame (snd (WriteFrame c P))) = Ok [] /\
  fst (ReadFrame (snd (WriteFrame c P))) <> Ok P.
Proof.
  intros P c.
  assert (HL : len P = 2 ^ 32).
  { unfold len. subst P. rewrite repeat_length, Nat2Z.inj_pow. reflexivity. }
  assert (Hne : P <> []).
  { intros E. rewrite E in HL. discriminate HL. }
  assert (Hn : uint32 (len P) = 0) by (rewrite HL; reflexivity).
  clearbody P. subst c. rewrite WriteFrame_pipe. cbn [fst snd app Channel].
  rewrite ReadFrame_pipe_wrapped by assumption. cbn [fst].
  repeat split.
  - exact HL.
  - unfold wire. cbn [bursts concat]. rewrite WriteFrame_buffer_eq. cbv zeta.
    rewrite Hn. reflexivity.
  - intros E. inversion E. congruence.
Qed.

(** C10: what WriteFrame emits is one Write of the slice it builds, and the
    channel is left as that Write left it: on the in-memory channel the bytes
    on the wire grow by exactly four bytes and the payload.  The four bytes
    are the big-endian encoding of len(payload) modulo 2^32, read back as
    that number by the decoder; the payload follows unchanged; WriteFrame
    returns whatever error the transport's Write returns and none of its
    own; so the prefix equals the length exactly for payloads shorter than
    2^32 bytes and is smaller than the length for all others. *)
Theorem C10_prefix_is_length_mod_2_32 (frame : list byte) :
  firstn 4 (WriteFrame_buffer frame) = big_endian_4 (len frame mod 2 ^ 32) /\
  skipn 4 (WriteFrame_buffer frame) = frame /\
  BigEndian_Uint32 (WriteFrame_buffer frame) = Some (len frame mod 2 ^ 32) /\
  big_endian_value (firstn 4 (WriteFrame_buffer frame)) = len frame mod 2 ^ 32 /\
  (len frame mod 2 ^ 32 = len frame <-> len frame < 2 ^ 32) /\
  (2 ^ 32 <= len frame -> len frame mod 2 ^ 32 < len frame) /\
  (forall (T : Type) (tr : ssh_Channel T) (c : ssh_channel T),
     fst (WriteFrame c frame)
     = snd (fst (Write (Channel c) (WriteFrame_buffer frame)))) /\
  (forall (m : ssh_channelData) (bs : list (list byte)),
     fst (WriteFrame {| Channel := Pipe bs; channelData := m |} frame) = None) /\
  (forall (T : Type) (tr : ssh_Channel T) (c : ssh_channel T),
     WriteFrame c frame
     = (snd (fst (Write (Channel c) (WriteFrame_buffer frame))),
        with_Channel c (snd (Write (Channel c) (WriteFrame_buffer frame))))) /\
  (forall (m : ssh_channelData) (bs : list (list byte)),
     snd (WriteFrame {| Channel := Pipe bs; channelData := m |} frame)
     = {| Channel := Pipe (bs ++ [big_endian_4 (len frame mod 2 ^ 32) ++ frame]);
          channelData := m |} /\
     wire (Channel (snd (WriteFrame {| Channel := Pipe bs; channelData := m |} frame)))
     = wire (Pipe bs) ++ big_endian_4 (len frame mod 2 ^ 32) ++ frame).
Proof.
  assert (Hr : 0 <= len frame mod 2 ^ 32 < 2 ^ 32) by (apply Z.mod_pos_bound; lia).
  assert (Hl : 0 <= len frame) by (unfold len; lia).
  split; [|split; [|split; [|split; [|split; [|split; [|split; [|split; [|split]]]]]]]].
  - rewrite WriteFrame_buffer_big_endian. reflexivity.
  - rewrite WriteFrame_buffer_big_endian. reflexivity.
  - rewrite WriteFrame_buffer_eq. cbv zeta. apply Uint32_of_prefix. exact Hr.
  - rewrite WriteFrame_buffer_big_endian. cbn [firstn big_endian_4 app].
    apply (big_endian_4_value (len frame mod 2 ^ 32)). exact Hr.
  - split; intros E.
    + lia.
    + apply Z.mod_small. lia.
  - intros Hge. lia.
  - intros T tr c. unfold WriteFrame.
    destruct (Write (Channel c) (WriteFrame_buffer frame)) as [[n err] t].
    reflexivity.
  - intros m bs. reflexivity.
  - intros T tr c. unfold WriteFrame.
    destruct (Write (Channel c) (WriteFrame_buffer frame)) as [[n err] t].
    reflexivity.
  - intros m bs. rewrite WriteFrame_pipe. cbn [snd Channel].
    rewrite WriteFrame_buffer_big_endian. split; [reflexivity|].
    unfold wire. cbn [bursts]. rewrite concat_app. cbn [concat].
    rewrite app_nil_r. reflexivity.
Qed.

(** A payload of 2^32 bytes goes out behind the prefix of an empty frame. *)
Example prefix_of_4GiB_payload :
  len (repeat x00 (Nat.pow 2 32)) = 2 ^ 32 /\
  BigEndian_Uint32 (WriteFrame_buffer (repeat x00 (Nat.pow 2 32))) = Some 0.
Proof.
  assert (HL : len (repeat x00 (Nat.pow 2 32)) = 2 ^ 32).
  { unfold len. rewrite repeat_length, Nat2Z.inj_pow. reflexivity. }
  split; [exact HL|].
  rewrite WriteFrame_buffer_eq. cbv zeta.
  rewrite Uint32_of_prefix by apply uint32_range. rewrite HL. reflexivity.
Qed.

(** C4 fails on the code: [ReadFrame] calls [Read] once for the length and
    once for the payload and ignores how many bytes each call brought.  The
    frame of the payload "ping" arrives in two parts.  When the payload's
    second half has not arrived yet, the frame returned has the declared
    length but holds only the first half, and zeroes after it, with no error;
    the second half stays in the channel.  When the length's second half has
    not arrived yet, two of its four bytes are taken for all four. *)
Lemma ReadFrame_short_read :
  let sent := WriteFrame_buffer ping in
  let late_payload := on_pipe (Pipe [firstn 6 sent; skipn 6 sent]) in
  let late_length := on_pipe (Pipe [firstn 2 sent; skipn 2 sent]) in
  ReadFrame late_payload
  = (Ok ["p"; "i"; x00; x00]%byte, on_pipe (Pipe [["n"; "g"]]%byte)) /\
  fst (ReadFrame late_payload) <> Ok ping /\
  ReadFrame late_length
  = (Ok [], on_pipe (Pipe [[x00; x04; "p"; "i"; "n"; "g"]]%byte)) /\
  fst (ReadFrame late_length) <> Ok ping.
Proof.
  intros sent late_payload late_length.
  split; [reflexivity|]. split; [discriminate|].
  split; [reflexivity|]. discriminate.
Qed.

(** On any transport: a second [Read] that brings fewer bytes than declared,
    and no error, makes [ReadFrame] return them padded with zeroes. *)
Lemma ReadFrame_pads_short_payload {T : Type} `{ssh_Channel T}
  (c : ssh_channel T) (hdr body : list byte) (t1 t2 : T) (n : Z) :
  Read (Channel c) 4 = (hdr, None, t1) ->
  BigEndian_Uint32 (stored (make 4) hdr) = Some n ->
  Read t1 (Z.to_nat n) = (body, None, t2) ->
  (length body <= Z.to_nat n)%nat ->
  fst (ReadFrame c) = Ok (body ++ repeat x00 (Z.to_nat n - length body)).
Proof.
  intros R1 D R2 Hle. rewrite (ReadFrame_two_reads c hdr body t1 t2 n R1 D R2).
  cbn [fst]. rewrite stored_short by (rewrite make_length; exact Hle).
  rewrite skipn_make. reflexivity.
Qed.

(** ** The authentication callback *)

Lemma bytes_Equal_true (a b : list byte) : bytes_Equal a b = true <-> a = b.
Proof.
  revert b. induction a as [|x a IH]; intros [|y b]; cbn [bytes_Equal].
  - split; reflexivity.
  - split; discriminate.
  - split; discriminate.
  - rewrite Bool.andb_true_iff, IH. split.
    + intros [Hxy Hab]. apply Byte.byte_dec_bl in Hxy. congruence.
    + intros E. injection E as -> ->. split; [apply Byte.byte_dec_lb|]; reflexivity.
Qed.

(** C7: the callback accepts a key if and only if its serialization equals,
    byte for byte, the serialization of the public half of the server's own
    private key; every other key is refused with the error "unauthorized". *)
Theorem C7_single_key_trust {K S : Type} `{ssh_PublicKey K} `{ssh_Signer S K}
  (pk : S) (connMeta : string) (key : K) :
  (PublicKeyCallback pk connMeta key = Ok Permissions
   <-> PublicKey_Marshal key = PublicKey_Marshal (PublicKey pk)) /\
  (PublicKeyCallback pk connMeta key = Err (errors_New "unauthorized")
   <-> PublicKey_Marshal key <> PublicKey_Marshal (PublicKey pk)).
Proof.
  unfold PublicKeyCallback.
  destruct (bytes_Equal (PublicKey_Marshal key) (PublicKey_Marshal (PublicKey pk)))
    eqn:E.
  - apply bytes_Equal_true in E.
    split; split; intros; first [reflexivity | congruence | contradiction].
  - assert (Hne : PublicKey_Marshal key <> PublicKey_Marshal (PublicKey pk)).
    { intros Heq. apply bytes_Equal_true in Heq. congruence. }
    split; split; intros; first [reflexivity | congruence | contradiction].
Qed.

Example PublicKeyCallback_own_key :
  PublicKeyCallback (S := list byte) [x01; x02]%byte "bob" [x01; x02]%byte
  = Ok Permissions.
Proof. reflexivity. Qed.

Example PublicKeyCallback_other_key :
  PublicKeyCallback (S := list byte) [x01; x02]%byte "bob" [x01; x03]%byte
  = Err (errors_New "unauthorized").
Proof. reflexivity. Qed.

(** ** Inbound channel dispatch *)

Section Accept_facts.
Context {T : Type} `{ssh_Codec ssh_channelData}.


Lemma accept_loop_other (newCh : ssh_NewChannel T) (chans : list (ssh_NewChannel T))
  (meta : ssh_channelData) (peer : Peer T) :
  ChannelType newCh <> "@duplex" ->
  accept_loop (newCh :: chans) meta peer = accept_loop chans meta peer.
Proof.
  intros Hne. cbn [accept_loop].
  destruct (String.eqb_spec (ChannelType newCh) "@duplex"); [contradiction|].
  reflexivity.
Qed.



(** The loop itself does nothing for an open whose type is not @duplex: it
    starts no goroutine and sends no reply, and with every goroutine run to
    its end in turn the run is that of the opens after it. *)
Lemma other_channel_types_start_nothing (lv : loopvar) (newCh : ssh_NewChannel T)
  (chans : list (ssh_NewChannel T)) (meta : ssh_channelData) (peer : Peer T) :
  ChannelType newCh <> "@duplex" ->
  accept_loop (newCh :: chans) meta peer = accept_loop chans meta peer /\
  ssh_acceptChannels (newCh :: chans) peer = ssh_acceptChannels chans peer /\
  accept_loop [newCh] meta peer = (meta, peer, []) /\
  step lv Loop (accept_init (newCh :: chans) peer)
  = Some {| st_meta := zero_meta; st_newCh := Some newCh; st_chans := chans;
            st_gos := []; st_done := []; st_peer := peer |}.
Proof.
  intros Hne. repeat split.
  - apply accept_loop_other. exact Hne.
  - unfold ssh_acceptChannels. rewrite accept_loop_other by exact Hne. reflexivity.
  - rewrite accept_loop_other by exact Hne. reflexivity.
  - cbn [step accept_init st_chans st_meta st_gos st_done st_peer].
    destruct (String.eqb_spec (ChannelType newCh) "@duplex"); [contradiction|].
    reflexivity.
Qed.

End Accept_facts.

(** ** The statement-by-statement loop and the loop run in turn *)

Section Machine_facts.
Context {T : Type} `{ssh_Codec ssh_channelData}.

Lemma run_app (lv : loopvar) (s1 s2 : list thread) (st : @accept_state T) :
  run lv (s1 ++ s2) st
  = match run lv s1 st with
    | Some st' => run lv s2 st'
    | None => None
    end.
Proof.
  revert st. induction s1 as [|t s1 IH]; intros st; [reflexivity|].
  cbn [app run]. destruct (step lv t st); [apply IH | reflexivity].
Qed.

Lemma go_step_lookup (st : @accept_state T) (k : nat) (g : @goroutine T) (at' : @pc T)
  (meta : ssh_channelData) (eff : list effect) (peer : Peer T) :
  st_gos st !! k = Some g ->
  st_gos (go_step st k g at' meta eff peer) !! k
  = Some {| own_newCh := own_newCh g; at_pc := at' |}.
Proof.
  intros Hk. cbn [go_step st_gos]. apply list_lookup_insert_eq.
  apply lookup_lt_Some in Hk. exact Hk.
Qed.

Lemma go_step_twice (st : @accept_state T) (k : nat) (g g' : @goroutine T) (a1 a2 : @pc T)
  (m1 m2 : ssh_channelData) (e1 e2 : list effect) (p1 p2 : Peer T) :
  own_newCh g' = own_newCh g ->
  go_step (go_step st k g a1 m1 e1 p1) k g' a2 m2 e2 p2
  = go_step st k g a2 m2 (e1 ++ e2) p2.
Proof.
  intros E. unfold go_step. cbn [st_newCh st_chans st_gos st_done].
  rewrite list_insert_insert_eq, E, app_assoc. reflexivity.
Qed.

Lemma newCh_of_go_step (lv : loopvar) (st : @accept_state T) (k : nat)
  (g g' : @goroutine T) (at' : @pc T) (meta : ssh_channelData) (eff : list effect)
  (peer : Peer T) :
  own_newCh g' = own_newCh g ->
  newCh_of lv (go_step st k g at' meta eff peer) g' = newCh_of lv st g.
Proof. intros E. destruct lv; cbn [newCh_of go_step st_newCh]; rewrite E; reflexivity. Qed.

(** A goroutine that is given all its steps in a row does what
    [accept_duplex] says. *)
Lemma goroutine_alone (lv : loopvar) (st : @accept_state T) (k : nat) (g : @goroutine T) :
  st_gos st !! k = Some g ->
  at_pc g = AtUnmarshal ->
  newCh_of lv st g = own_newCh g ->
  exists n,
    run lv (repeat (Go k) n) st
    = Some (let '(meta, peer, done) :=
              accept_duplex (own_newCh g) (st_meta st) (st_peer st) in
            go_step st k g Returned meta done peer).
Proof.
  intros Hk Hat Hown. unfold accept_duplex.
  destruct (Unmarshal (ExtraData (own_newCh g)) (st_meta st)) as [err meta] eqn:Hdec.
  set (g1 := {| own_newCh := own_newCh g; at_pc := AtCheck err |}).
  set (st1 := go_step st k g (AtCheck err) meta [] (st_peer st)).
  assert (S1 : step lv (Go k) st = Some st1).
  { cbn [step]. rewrite Hk, Hat, Hown, Hdec. reflexivity. }
  assert (Hk1 : st_gos st1 !! k = Some g1) by (apply go_step_lookup; exact Hk).
  assert (Hown1 : newCh_of lv st1 g1 = own_newCh g).
  { unfold st1. rewrite newCh_of_go_step by reflexivity. exact Hown. }
  destruct err as [e|].
  - exists 2%nat. cbn [repeat run]. rewrite S1. cbn [step].
    rewrite Hk1, Hown1. cbn [at_pc g1].
    replace (st_meta st1) with meta by reflexivity.
    replace (st_peer st1) with (st_peer st) by reflexivity. unfold st1.
    rewrite go_step_twice by reflexivity. reflexivity.
  - destruct (String.eqb (Service meta) "") eqn:Hs.
    + exists 2%nat. cbn [repeat run]. rewrite S1. cbn [step].
      rewrite Hk1, Hown1. cbn [at_pc g1].
      replace (st_meta st1) with meta by reflexivity. rewrite Hs.
      replace (st_peer st1) with (st_peer st) by reflexivity. unfold st1.
      rewrite go_step_twice by reflexivity. reflexivity.
    + set (g2 := {| own_newCh := own_newCh g; at_pc := AtAccept |}).
      set (st2 := go_step st k g AtAccept meta [] (st_peer st)).
      assert (S2 : step lv (Go k) st1 = Some st2).
      { cbn [step]. rewrite Hk1, Hown1. cbn [at_pc g1].
        replace (st_meta st1) with meta by reflexivity. rewrite Hs.
        replace (st_peer st1) with (st_peer st) by reflexivity. unfold st1, st2.
        rewrite go_step_twice by reflexivity. reflexivity. }
      assert (Hk2 : st_gos st2 !! k = Some g2) by (apply go_step_lookup; exact Hk).
      assert (Hown2 : newCh_of lv st2 g2 = own_newCh g).
      { unfold st2. rewrite newCh_of_go_step by reflexivity. exact Hown. }
      destruct (nc_Accept (own_newCh g)) as [ch|e] eqn:Hacc.
      * exists 4%nat. cbn [repeat run]. rewrite S1, S2. cbn [step].
        rewrite Hk2, Hown2. cbn [at_pc g2]. rewrite Hacc.
        replace (st_meta st2) with meta by reflexivity.
        replace (st_peer st2) with (st_peer st) by reflexivity. unfold st2.
        rewrite go_step_twice by reflexivity.
        set (st3 := go_step st k g (AtPush ch) meta _ (st_peer st)).
        assert (Hk3 : st_gos st3 !! k
                      = Some {| own_newCh := own_newCh g; at_pc := AtPush ch |})
          by (apply go_step_lookup; exact Hk).
        rewrite Hk3. cbn [at_pc].
        replace (st_meta st3) with meta by reflexivity.
        replace (st_peer st3) with (st_peer st) by reflexivity.
        assert (Hown3 : newCh_of lv st3
                          {| own_newCh := own_newCh g; at_pc := AtPush ch |}
                        = own_newCh g).
        { unfold st3. rewrite newCh_of_go_step by reflexivity. exact Hown. }
        rewrite Hown3. unfold st3. rewrite go_step_twice by reflexivity.
        reflexivity.
      * exists 3%nat. cbn [repeat run]. rewrite S1, S2. cbn [step].
        rewrite Hk2, Hown2. cbn [at_pc g2]. rewrite Hacc.
        replace (st_meta st2) with meta by reflexivity.
        replace (st_peer st2) with (st_peer st) by reflexivity. unfold st2.
        rewrite go_step_twice by reflexivity. reflexivity.
Qed.

(** Receiving the opens one by one and letting each goroutine finish before
    the next open is received is one of the schedules: it ends with the
    shared variable, the peer and the effects of [accept_loop]. *)
Lemma accept_loop_is_a_run (lv : loopvar) (chans : list (ssh_NewChannel T)) :
  forall st : @accept_state T, st_chans st = chans ->
  exists schedule st',
    run lv schedule st = Some st' /\
    st_chans st' = [] /\
    (st_meta st', st_peer st', st_done st')
    = (let '(meta, peer, done) := accept_loop chans (st_meta st) (st_peer st) in
       (meta, peer, st_done st ++ done)).
Proof.
  induction chans as [|newCh chans IH]; intros st Hch.
  - exists [], st. cbn [run accept_loop]. rewrite app_nil_r. auto.
  - set (spawned := if String.eqb (ChannelType newCh) "@duplex"
                    then [{| own_newCh := newCh; at_pc := AtUnmarshal |}] else []).
    set (st1 := {| st_meta := st_meta st; st_newCh := Some newCh; st_chans := chans;
                   st_gos := st_gos st ++ spawned;
                   st_done := st_done st; st_peer := st_peer st |}).
    assert (S1 : step lv Loop st = Some st1).
    { cbn [step]. rewrite Hch. reflexivity. }
    cbn [accept_loop]. subst spawned.
    destruct (String.eqb (ChannelType newCh) "@duplex").
    + set (g := {| own_newCh := newCh; at_pc := AtUnmarshal |}) in *.
      destruct (goroutine_alone lv st1 (length (st_gos st)) g) as [n Hn].
      * cbn [st1 st_gos]. rewrite lookup_app_r by lia.
        rewrite Nat.sub_diag. reflexivity.
      * reflexivity.
      * destruct lv; reflexivity.
      * cbn [own_newCh g st_meta st_peer st1] in Hn.
        destruct (accept_duplex newCh (st_meta st) (st_peer st))
          as [[meta peer] done].
        set (st2 := go_step st1 (length (st_gos st)) g Returned meta done peer) in Hn.
        destruct (IH st2 eq_refl) as (schedule & st' & Hrun & Hnil & Hres).
        cbn [st2 go_step st_meta st_peer st_done st1] in Hres.
        exists (Loop :: repeat (Go (length (st_gos st))) n ++ schedule), st'.
        cbn [run]. rewrite S1, run_app, Hn. split; [exact Hrun|].
        split; [exact Hnil|]. rewrite Hres.
        destruct (accept_loop chans meta peer) as [[meta' peer'] rest].
        rewrite app_assoc. reflexivity.
    + destruct (IH st1 eq_refl) as (schedule & st' & Hrun & Hnil & Hres).
      exists (Loop :: schedule), st'. cbn [run]. rewrite S1.
      split; [exact Hrun|]. split; [exact Hnil|]. exact Hres.
Qed.

Lemma ssh_acceptChannels_is_a_run (lv : loopvar) (chans : list (ssh_NewChannel T))
  (peer : Peer T) :
  exists schedule st',
    run lv schedule (accept_init chans peer) = Some st' /\
    (st_peer st', st_done st') = ssh_acceptChannels chans peer.
Proof.
  destruct (accept_loop_is_a_run lv chans (accept_init chans peer) eq_refl)
    as (schedule & st' & Hrun & _ & Hres).
  exists schedule, st'. split; [exact Hrun|]. unfold ssh_acceptChannels.
  cbn [accept_init st_meta st_peer st_done app] in Hres.
  destruct (accept_loop chans zero_meta peer) as [[meta peer'] done].
  congruence.
Qed.

End Machine_facts.

(** *** Closed runs of the dispatch loop *)

Example open_duplex_decodes :
  Unmarshal (ExtraData (open_duplex 1 "echo" ["v=1"])) zero_meta
  = (None, {| Service := "echo"; Headers := ["v=1"] |}).
Proof. reflexivity. Qed.

Example accept_echo :
  ssh_acceptChannels [open_duplex 1 "echo" ["v=1"]] alice
  = (send_incomingCh alice
       {| Channel := 1%nat; channelData := {| Service := "echo"; Headers := ["v=1"] |} |},
     [Accepted 1; DiscardRequests 1]).
Proof. reflexivity. Qed.

Example reject_empty_service :
  snd (ssh_acceptChannels [open_duplex 1 "" ["v=1"]] alice)
  = [Reject 1 UnknownChannelType "empty service"].
Proof. reflexivity. Qed.

Example reject_undecodable :
  snd (ssh_acceptChannels
         [{| nc_id := 1%nat; ChannelType := "@duplex"; ExtraData := [x00; x00]%byte;
             nc_Accept := Ok 1%nat |}] alice)
  = [Reject 1 UnknownChannelType "failed to parse channel data"].
Proof. reflexivity. Qed.



Example session_open_skipped_in_turn :
  ChannelType (open_session 3) <> "@duplex" /\
  ssh_acceptChannels [open_session 3; open_duplex 4 "echo" []] alice
  = ssh_acceptChannels [open_duplex 4 "echo" []] alice.
Proof.
  split; [discriminate|].
  apply (other_channel_types_start_nothing PerLoop (open_session 3)
           [open_duplex 4 "echo" []] zero_meta alice).
  discriminate.
Qed.

(** C9 fails on the code: the goroutine started for an @duplex open reads the
    loop's variable [newCh], which the [for] clause declares once for the
    whole loop (Go before 1.22), at each of its statements.  An open of
    another type received meanwhile is what it then acts on.  With the
    session open 3 received before the goroutine of the @duplex open 1 takes
    its first step, the goroutine decodes the extra data of open 3 and
    rejects open 3.  With open 3 received between the goroutine's check and
    its accept, open 3 is accepted and its channel is pushed onto the intake
    queue with the metadata of open 1, and the requests of open 3 are
    discarded.  Open 1 itself gets no reply in either run. *)
Lemma non_duplex_open_answered_by_earlier_goroutine :
  let chans := [open_duplex 1 "echo" ["v=1"]; open_session 3] in
  ChannelType (open_session 3) <> "@duplex" /\
  (exists st,
     run PerLoop late_schedule (accept_init chans alice) = Some st /\
     st_done st = [Reject 3 UnknownChannelType "failed to parse channel data"] /\
     incomingCh (st_peer st) = []) /\
  (exists st,
     run PerLoop overtaken_schedule (accept_init chans alice) = Some st /\
     st_done st = [Accepted 3; DiscardRequests 3] /\
     incomingCh (st_peer st)
     = [{| Channel := 3%nat;
           channelData := {| Service := "echo"; Headers := ["v=1"] |} |}]).
Proof.
  cbv zeta. split; [discriminate|]. split.
  - eexists. split; [vm_compute; reflexivity|]. split; reflexivity.
  - eexists. split; [vm_compute; reflexivity|]. split; reflexivity.
Qed.

(** With one [newCh] per iteration (Go 1.22 and later) a goroutine acts on
    the open it was started for: a step keeps every reply and every discard
    about an @duplex open. *)
Lemma per_iteration_step_only_duplex {T : Type} `{ssh_Codec ssh_channelData}
  (chans : list (ssh_NewChannel T)) (t : thread) (st st' : @accept_state T) :
  only_duplex_answered chans st ->
  step PerIteration t st = Some st' ->
  only_duplex_answered chans st'.
Proof.
  intros (Hc & Hg & Hd) Hs. destruct t as [|k].
  - cbn [step] in Hs. destruct (st_chans st) as [|newCh chans'] eqn:E; [discriminate|].
    injection Hs as <-. unfold only_duplex_answered. cbn.
    split; [|split].
    + intros c Hin. apply Hc. right. exact Hin.
    + apply Forall_app. split; [exact Hg|].
      destruct (String.eqb (ChannelType newCh) "@duplex") eqn:Hty; [|constructor].
      constructor; [|constructor]. cbn. split; [apply Hc; left; reflexivity|exact Hty].
    + exact Hd.
  - cbn [step] in Hs. destruct (st_gos st !! k) as [g|] eqn:Hk; [|discriminate].
    assert (Hgk : In (own_newCh g) chans /\ is_duplex (own_newCh g) = true).
    { exact (proj1 (Forall_lookup _ _) Hg k g Hk). }
    assert (Hstep : forall at' meta eff peer,
      Forall (fun e => forall id, effect_id e = Some id -> id = nc_id (own_newCh g)) eff ->
      only_duplex_answered chans (go_step st k g at' meta eff peer)).
    { intros at' meta eff peer Heff. unfold only_duplex_answered, go_step. cbn.
      split; [exact Hc|]. split.
      - apply Forall_insert; [exact Hg|]. cbn. exact Hgk.
      - apply Forall_app. split; [exact Hd|].
        eapply Forall_impl; [exact Heff|]. cbn. intros e He id Hid.
        exists (own_newCh g). destruct Hgk as [Hin Hdup].
        split; [exact Hin|]. split; [exact Hdup|]. symmetry. apply He. exact Hid. }
    assert (Hone : forall e,
      (forall id, effect_id e = Some id -> id = nc_id (own_newCh g)) ->
      Forall (fun e => forall id, effect_id e = Some id -> id = nc_id (own_newCh g)) [e]).
    { intros e He. constructor; [exact He|constructor]. }
    cbn [newCh_of] in Hs.
    destruct (at_pc g) as [|[e|]| |ch|].
    + destruct (Unmarshal (ExtraData (own_newCh g)) (st_meta st)) as [err meta].
      injection Hs as <-. apply Hstep. constructor.
    + injection Hs as <-. apply Hstep, Hone. cbn. intros id [= <-]. reflexivity.
    + destruct (String.eqb (Service (st_meta st)) "").
      * injection Hs as <-. apply Hstep, Hone. cbn. intros id [= <-]. reflexivity.
      * injection Hs as <-. apply Hstep. constructor.
    + destruct (nc_Accept (own_newCh g)) as [ch|e].
      * injection Hs as <-. apply Hstep, Hone. cbn. intros id [= <-]. reflexivity.
      * injection Hs as <-. apply Hstep, Hone. cbn. intros id [=].
    + injection Hs as <-. apply Hstep, Hone. cbn. intros id [= <-]. reflexivity.
    + discriminate.
Qed.

(** So with one [newCh] per iteration, under every schedule, an open whose
    type is not @duplex gets no reply and its requests are not discarded. *)
Lemma per_iteration_only_duplex_answered {T : Type} `{ssh_Codec ssh_channelData}
  (chans : list (ssh_NewChannel T)) (peer : Peer T) (schedule : list thread)
  (st : @accept_state T) :
  run PerIteration schedule (accept_init chans peer) = Some st ->
  forall e id, In e (st_done st) -> effect_id e = Some id ->
  exists newCh, In newCh chans /\ ChannelType newCh = "@duplex" /\ nc_id newCh = id.
Proof.
  assert (G : forall schedule st0 st1,
    only_duplex_answered chans st0 ->
    run PerIteration schedule st0 = Some st1 -> only_duplex_answered chans st1).
  { clear. induction schedule as [|t schedule IH]; intros st0 st1 I R.
    - injection R as <-. exact I.
    - cbn [run] in R. destruct (step PerIteration t st0) as [st0'|] eqn:Hs; [|discriminate].
      apply (IH st0' st1); [|exact R].
      exact (per_iteration_step_only_duplex chans t st0 st0' I Hs). }
  intros R e id Hin Hid.
  assert (I0 : only_duplex_answered chans (accept_init chans peer)).
  { unfold only_duplex_answered, accept_init. cbn.
    split; [auto|]. split; constructor. }
  destruct (G schedule _ st I0 R) as (_ & _ & Hd).
  destruct (proj1 (List.Forall_forall _ _) Hd e Hin id Hid) as (newCh & Hc & Hdup & Hi).
  exists newCh. split; [exact Hc|]. split; [|exact Hi].
  apply String.eqb_eq. exact Hdup.
Qed.

(** With one [newCh] per iteration the same two schedules leave the session
    open alone: every effect is about open 1. *)
Example session_open_left_alone_per_iteration :
  let chans := [open_duplex 1 "echo" ["v=1"]; open_session 3] in
  (exists st,
     run PerIteration late_schedule (accept_init chans alice) = Some st /\
     st_done st = []) /\
  (exists st,
     run PerIteration overtaken_schedule (accept_init chans alice) = Some st /\
     st_done st = [Accepted 1; DiscardRequests 1] /\
     incomingCh (st_peer st)
     = [{| Channel := 1%nat;
           channelData := {| Service := "echo"; Headers := ["v=1"] |} |}]).
Proof.
  cbv zeta. split.
  - eexists. split; [vm_compute; reflexivity|]. reflexivity.
  - eexists. split; [vm_compute; reflexivity|]. split; reflexivity.
Qed.

(** Two opens with services "a" and "b", handled one after the other: each
    channel carries its own metadata. *)
Example two_opens_in_turn :
  forall lv,
    option_map (fun st => incomingCh (st_peer st))
      (run lv calm_schedule
         (accept_init [open_duplex 1 "a" ["x"]; open_duplex 2 "b" ["y"]] alice))
    = Some [{| Channel := 1%nat; channelData := {| Service := "a"; Headers := ["x"] |} |};
            {| Channel := 2%nat; channelData := {| Service := "b"; Headers := ["y"] |} |}].
Proof. intros []; reflexivity. Qed.

(** C5 fails on the code: all goroutines decode into the one variable [meta]
    declared before the loop.  With the second goroutine decoding between the
    first one's accept and its push, the channel of the open sent with
    service "a" and headers ["x"] arrives on the intake queue carrying "b" and
    ["y"].  The schedule is possible whether [newCh] is one variable per loop
    or one per iteration. *)
Lemma acceptChannels_cross_talk :
  forall lv,
    option_map (fun st => incomingCh (st_peer st))
      (run lv racy_schedule
         (accept_init [open_duplex 1 "a" ["x"]; open_duplex 2 "b" ["y"]] alice))
    = Some [{| Channel := 1%nat; channelData := {| Service := "b"; Headers := ["y"] |} |};
            {| Channel := 2%nat; channelData := {| Service := "b"; Headers := ["y"] |} |}].
Proof. intros []; reflexivity. Qed.

(** The cross-talk needs nothing special of the two opens: any two
    well-formed ones will do. *)
Lemma cross_talk_of_any_two_opens {T : Type} `{ssh_Codec ssh_channelData}
  (lv : loopvar) (a b : ssh_NewChannel T) (ma mb : ssh_channelData) (cha chb : T)
  (peer : Peer T) :
  ChannelType a = "@duplex" -> ChannelType b = "@duplex" ->
  (forall m, Unmarshal (ExtraData a) m = (None, ma)) ->
  (forall m, Unmarshal (ExtraData b) m = (None, mb)) ->
  Service ma <> "" -> Service mb <> "" ->
  nc_Accept a = Ok cha -> nc_Accept b = Ok chb ->
  option_map (fun st => incomingCh (st_peer st))
    (run lv racy_schedule (accept_init [a; b] peer))
  = Some (incomingCh peer
          ++ [{| Channel := cha; channelData := mb |};
              {| Channel := chb; channelData := mb |}]).
Proof.
  intros Hta Htb Hda Hdb Hsa Hsb Haa Hab.
  apply String.eqb_neq in Hsa, Hsb.
  unfold racy_schedule, accept_init.
  destruct lv;
    repeat (cbn; rewrite ?Hta, ?Htb, ?String.eqb_refl, ?Hda, ?Hdb, ?Hsa, ?Hsb,
              ?Haa, ?Hab);
    rewrite <- app_assoc; reflexivity.
Qed.

(** ** The acceptor's side of the greeting *)

Section Listener_facts.
Context {T : Type} `{ssh_Codec ssh_greetingPayload} `{ssh_Codec ssh_channelData}.
Variable ServerConfig : Type.
Variable NewServerConn :
  net_Conn -> ServerConfig ->
  result (ssh_Conn * list (ssh_NewChannel T) * list ssh_Request).

(** A failed handshake registers nothing. *)
Lemma handleConn_handshake_failure (netConn : net_Conn) (config : ServerConfig)
  (peer : Peer T) (e : error) :
  NewServerConn netConn config = Err e ->
  ssh_handleConn ServerConfig NewServerConn netConn config peer
  = (peer, [log_Println "debug: failed to handshake:"; conn_Close]).
Proof. intros E. unfold ssh_handleConn. rewrite E. reflexivity. Qed.

(** C3, as amended: when the greeting exchange fails (the send returns an
    error, or the acknowledgment is negative or missing), the connection is
    closed and no inbound channel of it is dispatched; the entry that was put
    into the registry under the remote address before the greeting was sent
    is still there, and the other entries are untouched. *)
Theorem C3_greeting_failure (netConn : net_Conn) (config : ServerConfig)
  (peer : Peer T) (sshConn : ssh_Conn) (chans : list (ssh_NewChannel T))
  (reqs : list ssh_Request) :
  NewServerConn netConn config = Ok (sshConn, chans, reqs) ->
  (let '(ok, _, err) :=
     SendRequest sshConn "@duplex-greeting" true
       (Marshal {| Name := GetOption peer OptName |}) in
   err <> None \/ ok = false) ->
  let peer' := fst (ssh_handleConn ServerConfig NewServerConn netConn config peer) in
  let done := snd (ssh_handleConn ServerConfig NewServerConn netConn config peer) in
  done = [log_Println "debug: failed to greet:"; conn_Close] /\
  conns peer' !! RemoteAddr_String netConn
  = Some {| addr := RemoteAddr_Network netConn +:+ "://" +:+ RemoteAddr_String netConn;
            name := User sshConn;
            conn := sshConn |} /\
  (forall key, key <> RemoteAddr_String netConn ->
               conns peer' !! key = conns peer !! key) /\
  incomingCh peer' = incomingCh peer.
Proof.
  intros Hs Hfail peer' done. subst peer' done. unfold ssh_handleConn.
  rewrite Hs. cbv zeta.
  cbn [greeting_request ReqType WantReply Payload GetOption set_conn options].
  fold (GetOption peer OptName).
  destruct (SendRequest sshConn "@duplex-greeting" true
              (Marshal {| Name := GetOption peer OptName |})) as [[ok reply] err].
  assert (Hb : is_error err || negb ok = true).
  { destruct Hfail as [He | ->].
    - destruct err; [reflexivity | congruence].
    - apply Bool.orb_true_r. }
  rewrite Hb. cbn [fst snd conns incomingCh].
  repeat split.
  - apply lookup_insert_eq.
  - intros key Hne. apply lookup_insert_ne. congruence.
Qed.

End Listener_facts.

Lemma C3_greeting_failure_witness :
  conns (fst (ssh_handleConn unit (handshake_gives refusing [] []) from_bob tt alice))
  !! "10.0.0.2:4242"
  = Some {| addr := "tcp://10.0.0.2:4242"; name := "bob"; conn := refusing |}.
Proof.
  refine (proj1 (proj2 (C3_greeting_failure unit (handshake_gives refusing [] [])
                          from_bob tt alice refusing [] [] eq_refl _))).
  right. reflexivity.
Defined.

(** C3 as stated fails: bob's connection is refused the greeting, and after
    the failure alice's registry holds an entry under bob's address. *)
Lemma C3_counterexample :
  SendRequest refusing "@duplex-greeting" true
    (Payload (greeting_request alice)) = (false, [], None) /\
  snd (ssh_handleConn unit (handshake_gives refusing [] []) from_bob tt alice)
  = [log_Println "debug: failed to greet:"; conn_Close] /\
  conns (fst (ssh_handleConn unit (handshake_gives refusing [] []) from_bob tt alice))
  !! RemoteAddr_String from_bob <> None.
Proof.
  split; [reflexivity|]. split; [reflexivity|].
  unfold ssh_handleConn, handshake_gives. cbn [fst conns set_conn refusing SendRequest
    greeting_request ReqType WantReply Payload is_error negb orb].
  rewrite lookup_insert_eq. discriminate.
Qed.

(** ** The dialer's side of the greeting *)

Section Requests_facts.
Context `{ssh_Codec ssh_greetingPayload}.

(** One request that is no greeting: refused, and the loop goes on. *)
Lemma serve_requests_other (taken : bool) (r : ssh_Request)
  (reqs : list ssh_Request) :
  ReqType r <> "@duplex-greeting" ->
  serve_requests taken (r :: reqs) = Replied r false :: serve_requests taken reqs.
Proof.
  intros Hne. cbn [serve_requests].
  destruct (String.eqb_spec (ReqType r) "@duplex-greeting"); [contradiction|].
  reflexivity.
Qed.

(** The first well-formed greeting: its name is handed over, then it is
    acknowledged. *)
Lemma serve_requests_greeting (r : ssh_Request) (reqs : list ssh_Request)
  (greeting : ssh_greetingPayload) :
  ReqType r = "@duplex-greeting" ->
  Unmarshal (Payload r) {| Name := "" |} = (None, greeting) ->
  serve_requests false (r :: reqs)
  = Handed (Name greeting) :: Replied r true :: serve_requests true reqs.
Proof.
  intros Hty Hdec. cbn [serve_requests]. rewrite Hty, Hdec. reflexivity.
Qed.

(** Requests that are no greetings hand nothing to the dialer. *)
Lemma no_greeting_no_name (taken : bool) (reqs : list ssh_Request) :
  Forall (fun r => ReqType r <> "@duplex-greeting") reqs ->
  serve_requests taken reqs = map (fun r => Replied r false) reqs /\
  nameCh_recv (serve_requests taken reqs) = None.
Proof.
  induction 1 as [|r reqs Hr _ [IH1 IH2]].
  - split; reflexivity.
  - rewrite serve_requests_other by exact Hr. cbn [map nameCh_recv].
    rewrite IH1 in *. split; [reflexivity | exact IH2].
Qed.

Lemma nameCh_recv_app_refused (pre : list ssh_Request) (trace : list served) :
  nameCh_recv (map (fun r => Replied r false) pre ++ trace) = nameCh_recv trace.
Proof. induction pre as [|r pre IH]; [reflexivity | exact IH]. Qed.

Lemma serve_requests_app_others (taken : bool) (pre reqs : list ssh_Request) :
  Forall (fun r => ReqType r <> "@duplex-greeting") pre ->
  serve_requests taken (pre ++ reqs)
  = map (fun r => Replied r false) pre ++ serve_requests taken reqs.
Proof.
  induction 1 as [|r pre Hr _ IH]; [reflexivity|].
  cbn [app map]. rewrite serve_requests_other by exact Hr. rewrite IH. reflexivity.
Qed.

(** Whatever is handed to the dialer is the name of a well-formed greeting
    that was received. *)
Lemma name_comes_from_greeting (reqs : list ssh_Request) (taken : bool)
  (n : string) :
  nameCh_recv (serve_requests taken reqs) = Some n ->
  exists r, In r reqs /\ ReqType r = "@duplex-greeting" /\
            Unmarshal (Payload r) {| Name := "" |} = (None, {| Name := n |}).
Proof.
  induction reqs as [|r reqs IH]; cbn [serve_requests]; [discriminate|].
  destruct (String.eqb_spec (ReqType r) "@duplex-greeting") as [Hty|Hty].
  - destruct (Unmarshal (Payload r) {| Name := "" |}) as [[e|] [gname]] eqn:Hdec.
    + intros Hn. destruct (IH Hn) as (r' & Hin & Hr'). exists r'.
      split; [right; exact Hin | exact Hr'].
    + destruct taken; cbn [nameCh_recv]; [discriminate|].
      intros [= <-]. exists r. split; [left; reflexivity|]. split; assumption.
  - cbn [nameCh_recv]. intros Hn. destruct (IH Hn) as (r' & Hin & Hr'). exists r'.
    split; [right; exact Hin | exact Hr'].
Qed.

(** Once the dialer has its name, every request reached by the loop that is
    no greeting is refused, up to the next well-formed greeting. *)
Lemma refused_until_next_greeting (pre post : list ssh_Request) (r : ssh_Request) :
  Forall (fun r => ReqType r <> "@duplex-greeting") pre ->
  ReqType r <> "@duplex-greeting" ->
  serve_requests true (pre ++ r :: post)
  = map (fun r => Replied r false) pre ++ Replied r false :: serve_requests true post.
Proof.
  intros Hpre Hr. rewrite serve_requests_app_others by exact Hpre.
  rewrite serve_requests_other by exact Hr. reflexivity.
Qed.

(** A well-formed greeting after the first one stops the loop for good:
    nothing that arrives later is served. *)
Lemma second_greeting_stops_loop (r : ssh_Request) (post : list ssh_Request)
  (greeting : ssh_greetingPayload) :
  ReqType r = "@duplex-greeting" ->
  Unmarshal (Payload r) {| Name := "" |} = (None, greeting) ->
  serve_requests true (r :: post) = [Stuck (Name greeting)].
Proof.
  intros Hty Hdec. cbn [serve_requests]. rewrite Hty, Hdec. reflexivity.
Qed.

End Requests_facts.

Section Dial_facts.
Context {T S : Type} `{ssh_Codec ssh_greetingPayload} `{ssh_Codec ssh_channelData}.
Variable ServerConfig : Type.
Variable NewServerConn :
  net_Conn -> ServerConfig ->
  result (ssh_Conn * list (ssh_NewChannel T) * list ssh_Request).
Variable user_Current : result string.
Variable ioutil_ReadFile : string -> result (list byte).
Variable ssh_ParsePrivateKey : list byte -> result S.
Variable net_Dial : string -> string -> result net_Conn.
Variable NewClientConn :
  net_Conn -> string -> ssh_ClientConfig S ->
  result (ssh_Conn * list (ssh_NewChannel T) * list ssh_Request).

(** A dial returns a connection only after a well-formed greeting has been
    received, and the connection's name is the one that greeting carries. *)
Lemma dial_returns_after_greeting (dialer : Peer T) (network address : string)
  (c : ssh_peerConnection) :
  newPeerConnection_ssh user_Current ioutil_ReadFile ssh_ParsePrivateKey
    net_Dial NewClientConn dialer network address
  = Returns (Some (Ok c)) ->
  exists pk netConn sshConn chans reqs r,
    loadPrivateKey user_Current ioutil_ReadFile ssh_ParsePrivateKey
      (GetOption dialer OptPrivateKey) = Returns (Ok pk) /\
    net_Dial network address = Ok netConn /\
    NewClientConn netConn address
      {| config_User := GetOption dialer OptName; config_Auth := [pk] |}
    = Ok (sshConn, chans, reqs) /\
    In r reqs /\ ReqType r = "@duplex-greeting" /\
    Unmarshal (Payload r) {| Name := "" |} = (None, {| Name := name c |}).
Proof.
  unfold newPeerConnection_ssh.
  destruct (loadPrivateKey _ _ _ _) as [[pk|e]|msg] eqn:Hk; [|discriminate..].
  destruct (net_Dial network address) as [netConn|e] eqn:Hd; [|discriminate].
  destruct (NewClientConn netConn address _) as [[[sshConn chans] reqs]|e] eqn:Hc;
    [|discriminate].
  destruct (nameCh_recv (serve_requests false reqs)) as [n|] eqn:Hn; [|discriminate].
  intros [= <-]. cbn [name].
  destruct (name_comes_from_greeting reqs false n Hn) as (r & Hin & Hty & Hdec).
  exists pk, netConn, sshConn, chans, reqs, r. repeat split; assumption.
Qed.

(** Without a well-formed greeting the call never returns. *)
Lemma dial_waits_for_greeting (dialer : Peer T) (network address : string)
  (pk : S) (netConn : net_Conn) (sshConn : ssh_Conn)
  (chans : list (ssh_NewChannel T)) (reqs : list ssh_Request) :
  loadPrivateKey user_Current ioutil_ReadFile ssh_ParsePrivateKey
    (GetOption dialer OptPrivateKey) = Returns (Ok pk) ->
  net_Dial network address = Ok netConn ->
  NewClientConn netConn address
    {| config_User := GetOption dialer OptName; config_Auth := [pk] |}
  = Ok (sshConn, chans, reqs) ->
  Forall (fun r => ReqType r <> "@duplex-greeting") reqs ->
  newPeerConnection_ssh user_Current ioutil_ReadFile ssh_ParsePrivateKey
    net_Dial NewClientConn dialer network address
  = Returns None.
Proof.
  intros Hk Hd Hc Hreqs. unfold newPeerConnection_ssh. rewrite Hk, Hd, Hc.
  destruct (no_greeting_no_name false reqs Hreqs) as [_ ->]. reflexivity.
Qed.

(** The refusals before the hand-over come before everything else. *)
Lemma dial_events_app_refused (k : nat) (mk : string -> ssh_peerConnection)
  (pre : list ssh_Request) (trace : list served) :
  dial_events k mk (map (fun r => Replied r false) pre ++ trace)
  = map Served (map (fun r => Replied r false) pre) ++ dial_events k mk trace.
Proof.
  induction pre as [|r pre IH]; [reflexivity|].
  cbn [map app dial_events]. rewrite IH. reflexivity.
Qed.

(** What the request loop does is no return of the dial. *)
Lemma no_return_among_served (l : list served) :
  Forall (fun d => forall c, d <> dial_Returned c) (map Served l).
Proof. induction l as [|e l IH]; constructor; [discriminate | exact IH]. Qed.

(** The return of a dial is found at one place of its events. *)
Lemma split_at_return (A B before after : list dial_event)
  (c c' : ssh_peerConnection) :
  Forall (fun d => forall c, d <> dial_Returned c) A ->
  Forall (fun d => forall c, d <> dial_Returned c) B ->
  A ++ dial_Returned c :: B = before ++ dial_Returned c' :: after ->
  before = A /\ c' = c.
Proof.
  intros HA HB. revert before. induction HA as [|a A Ha _ IH]; intros before E.
  - destruct before as [|d before'].
    + injection E as E _. split; [reflexivity | symmetry; exact E].
    + injection E as _ E. exfalso.
      assert (Hin : In (dial_Returned c') B).
      { rewrite E. apply in_or_app. right. left. reflexivity. }
      exact (proj1 (List.Forall_forall _ _) HB _ Hin c' eq_refl).
  - destruct before as [|d before'].
    + injection E as E _. exfalso. exact (Ha c' E).
    + injection E as <- E. destruct (IH before' E) as [-> ->].
      split; reflexivity.
Qed.

(** In every run of a dial the return comes after a hand-over, and the
    connection returned carries the name handed over. *)
Lemma dial_returns_after_hand_over (k : nat) (mk : string -> ssh_peerConnection)
  (trace : list served) (before after : list dial_event) (c : ssh_peerConnection) :
  dial_events k mk trace = before ++ dial_Returned c :: after ->
  exists n, In (Served (Handed n)) before /\ c = mk n.
Proof.
  revert before. induction trace as [|e trace IH]; intros before E.
  - destruct before; discriminate E.
  - assert (Hrec : forall e0,
      Served e0 :: dial_events k mk trace = before ++ dial_Returned c :: after ->
      exists n, In (Served (Handed n)) before /\ c = mk n).
    { intros e0 E0. destruct before as [|d before']; [discriminate E0|].
      injection E0 as <- E0. destruct (IH before' E0) as (n & Hin & Hc).
      exists n. split; [right; exact Hin | exact Hc]. }
    destruct e as [r ok|n|n]; [exact (Hrec _ E) | | exact (Hrec _ E)].
    cbn [dial_events] in E. rewrite app_comm_cons in E.
    apply split_at_return in E.
    + destruct E as [-> ->]. exists n. split; [left; reflexivity | reflexivity].
    + constructor; [discriminate | apply no_return_among_served].
    + apply no_return_among_served.
Qed.

(** C6, as amended: with the acceptor and the dialer on the two ends of one
    connection, the acceptor's [ssh_handleConn] sends a greeting that the
    dialer's request loop grants, so the acceptor goes on to dispatch the
    connection's channels; the dial returns a connection whose name is
    exactly the display name (OptName) the acceptor is configured with.  The
    dial does not return before the acceptor's greeting has been received and
    its name handed over: the requests before the greeting hand over nothing,
    and in every run the return comes after the hand-over.  The positive
    reply is sent after the hand-over as well, before or after the return:
    the dial does not wait for it. *)
Theorem C6_greeting_exchange (acceptor dialer : Peer T) (from_dialer : net_Conn)
  (config : ServerConfig) (chans_in : list (ssh_NewChannel T))
  (reqs_in : list ssh_Request) (network address : string) (pk : S)
  (netConn : net_Conn) (sshConn : ssh_Conn) (chans : list (ssh_NewChannel T))
  (pre post : list ssh_Request) :
  NewServerConn from_dialer config
  = Ok (dialer_end (GetOption dialer OptName), chans_in, reqs_in) ->
  loadPrivateKey user_Current ioutil_ReadFile ssh_ParsePrivateKey
    (GetOption dialer OptPrivateKey) = Returns (Ok pk) ->
  net_Dial network address = Ok netConn ->
  NewClientConn netConn address
    {| config_User := GetOption dialer OptName; config_Auth := [pk] |}
  = Ok (sshConn, chans, pre ++ greeting_request acceptor :: post) ->
  Forall (fun r => ReqType r <> "@duplex-greeting") pre ->
  Unmarshal (Marshal {| Name := GetOption acceptor OptName |}) {| Name := "" |}
  = (None, {| Name := GetOption acceptor OptName |}) ->
  let greeting := greeting_request acceptor in
  let mk := fun n => {| addr := network +:+ "://" +:+ address; name := n;
                        conn := sshConn |} in
  let registered :=
    set_conn acceptor (RemoteAddr_String from_dialer)
      {| addr := RemoteAddr_Network from_dialer +:+ "://"
                 +:+ RemoteAddr_String from_dialer;
         name := GetOption dialer OptName;
         conn := dialer_end (GetOption dialer OptName) |} in
  let after_hand_over := Replied greeting true :: serve_requests true post in
  (SendRequest (dialer_end (GetOption dialer OptName))
     (ReqType (greeting_request registered)) (WantReply (greeting_request registered))
     (Payload (greeting_request registered))
   = (true, [], None) /\
   serve_requests false [greeting_request registered]
   = [Handed (GetOption acceptor OptName); Replied (greeting_request registered) true] /\
   ssh_handleConn ServerConfig NewServerConn from_dialer config acceptor
   = (fst (ssh_acceptChannels chans_in registered),
      snd (ssh_acceptChannels chans_in registered) ++ [conn_Close])) /\
  newPeerConnection_ssh user_Current ioutil_ReadFile ssh_ParsePrivateKey
    net_Dial NewClientConn dialer network address
  = Returns (Some (Ok (mk (GetOption acceptor OptName)))) /\
  nameCh_recv (serve_requests false pre) = None /\
  serve_requests false (pre ++ greeting :: post)
  = map (fun r => Replied r false) pre
    ++ Handed (GetOption acceptor OptName) :: after_hand_over /\
  (forall k,
     dial_events k mk (serve_requests false (pre ++ greeting :: post))
     = map Served (map (fun r => Replied r false) pre)
       ++ Served (Handed (GetOption acceptor OptName))
       :: map Served (firstn k after_hand_over)
       ++ dial_Returned (mk (GetOption acceptor OptName))
       :: map Served (skipn k after_hand_over)) /\
  (forall k before after c,
     dial_events k mk (serve_requests false (pre ++ greeting :: post))
     = before ++ dial_Returned c :: after ->
     In (Served (Handed (GetOption acceptor OptName))) before /\
     c = mk (GetOption acceptor OptName)).
Proof.
  intros Hs Hk Hd Hc Hpre Hcodec greeting mk registered after_hand_over.
  subst greeting.
  assert (Htrace :
    serve_requests false (pre ++ greeting_request acceptor :: post)
    = map (fun r => Replied r false) pre
      ++ Handed (GetOption acceptor OptName) :: after_hand_over).
  { rewrite serve_requests_app_others by exact Hpre.
    rewrite (serve_requests_greeting (greeting_request acceptor) post
               {| Name := GetOption acceptor OptName |}); [reflexivity..|exact Hcodec]. }
  assert (Hone :
    serve_requests false [greeting_request registered]
    = [Handed (GetOption acceptor OptName); Replied (greeting_request registered) true]).
  { rewrite (serve_requests_greeting (greeting_request registered) []
               {| Name := GetOption acceptor OptName |}); [reflexivity..|exact Hcodec]. }
  assert (Hreply :
    SendRequest (dialer_end (GetOption dialer OptName))
      (ReqType (greeting_request registered)) (WantReply (greeting_request registered))
      (Payload (greeting_request registered))
    = (true, [], None)).
  { cbn [dialer_end SendRequest].
    change {| ReqType := ReqType (greeting_request registered);
              WantReply := WantReply (greeting_request registered);
              Payload := Payload (greeting_request registered) |}
      with (greeting_request registered).
    rewrite Hone. reflexivity. }
  assert (Hevents : forall k,
    dial_events k mk (serve_requests false (pre ++ greeting_request acceptor :: post))
    = map Served (map (fun r => Replied r false) pre)
      ++ Served (Handed (GetOption acceptor OptName))
      :: map Served (firstn k after_hand_over)
      ++ dial_Returned (mk (GetOption acceptor OptName))
      :: map Served (skipn k after_hand_over)).
  { intros k. rewrite Htrace, dial_events_app_refused. reflexivity. }
  split; [split; [exact Hreply | split; [exact Hone|]] |].
  - unfold ssh_handleConn. rewrite Hs. cbv zeta.
    change (User (dialer_end (GetOption dialer OptName))) with (GetOption dialer OptName).
    fold registered. rewrite Hreply. cbn [is_error negb orb].
    destruct (ssh_acceptChannels chans_in registered) as [peer' done]. reflexivity.
  - split; [|split; [|split; [|split]]].
    + unfold newPeerConnection_ssh. rewrite Hk, Hd, Hc, Htrace.
      rewrite nameCh_recv_app_refused. reflexivity.
    + apply no_greeting_no_name. exact Hpre.
    + exact Htrace.
    + exact Hevents.
    + intros k before after c E. rewrite Hevents in E.
      rewrite app_comm_cons, app_assoc in E.
      apply split_at_return in E.
      * destruct E as [-> ->]. split; [|reflexivity].
        apply in_or_app. right. left. reflexivity.
      * apply Forall_app. split; [apply no_return_among_served|].
        constructor; [discriminate | apply no_return_among_served].
      * apply no_return_among_served.
Qed.

End Dial_facts.

Lemma C6_greeting_exchange_witness :
  snd (ssh_handleConn unit (handshake_gives (dialer_end "bob") [] []) from_bob tt alice)
  = [conn_Close] /\
  newPeerConnection_ssh the_user key_file parse_key dial_through
    (handshake_then granting [] ([keepalive] ++ greeting_request alice :: []))
    bob "tcp" "10.0.0.1:22"
  = Returns (Some (Ok {| addr := "tcp://10.0.0.1:22"; name := "alice";
                         conn := granting |})).
Proof.
  assert (Hpre : Forall (fun r => ReqType r <> "@duplex-greeting") [keepalive]).
  { constructor; [discriminate | constructor]. }
  assert (Hcodec :
    Unmarshal (Marshal {| Name := GetOption alice OptName |}) {| Name := "" |}
    = (None, {| Name := GetOption alice OptName |})) by reflexivity.
  assert (Hkey :
    loadPrivateKey the_user key_file parse_key (GetOption bob OptPrivateKey)
    = Returns (Ok [x01; x02]%byte)) by reflexivity.
  pose proof (C6_greeting_exchange unit (handshake_gives (dialer_end "bob") [] [])
                the_user key_file parse_key dial_through
                (handshake_then granting [] ([keepalive] ++ greeting_request alice :: []))
                alice bob from_bob tt [] [] "tcp" "10.0.0.1:22" [x01; x02]%byte
                to_alice granting [] [keepalive] []
                eq_refl Hkey eq_refl eq_refl Hpre Hcodec) as W.
  cbv zeta in W. destruct W as ((_ & _ & Hacc) & Hdial & _).
  split; [rewrite Hacc; reflexivity | exact Hdial].
Defined.

(** C6 as stated fails: the request loop hands the name over on [nameCh]
    before it sends the positive reply, and the dialer, once it has the
    name, goes on to its return without waiting for anything else.  In the
    run where the dialer is the faster one, bob's dial to alice has returned
    the connection before alice's greeting is acknowledged, that is, before
    the greeting exchange is complete. *)
Lemma C6_counterexample :
  let greeting := greeting_request alice in
  let mk := fun n => {| addr := "tcp://10.0.0.1:22"; name := n; conn := granting |} in
  newPeerConnection_ssh the_user key_file parse_key dial_through
    (handshake_then granting [] [greeting]) bob "tcp" "10.0.0.1:22"
  = Returns (Some (Ok (mk "alice"))) /\
  serve_requests false [greeting] = [Handed "alice"; Replied greeting true] /\
  dial_events 0 mk (serve_requests false [greeting])
  = [Served (Handed "alice"); dial_Returned (mk "alice");
     Served (Replied greeting true)].
Proof. cbv zeta. split; [reflexivity|]. split; reflexivity. Qed.

Example dial_alice :
  newPeerConnection_ssh the_user key_file parse_key dial_through
    (handshake_then granting [] [keepalive; greeting_request (T := nat) alice])
    bob "tcp" "10.0.0.1:22"
  = Returns (Some (Ok {| addr := "tcp://10.0.0.1:22"; name := "alice";
                         conn := granting |})).
Proof. reflexivity. Qed.

(** A dial with a key path of one byte panics before anything is dialled. *)
Example dial_with_short_key_path :
  newPeerConnection_ssh the_user key_file parse_key dial_through
    (handshake_then granting [] [greeting_request (T := nat) alice])
    {| options := fun o => match o with
                           | OptName => "bob"
                           | OptPrivateKey => "k"
                           end;
       conns := ∅; incomingCh := [] |} "tcp" "10.0.0.1:22"
  = Panics "slice bounds out of range".
Proof. reflexivity. Qed.

(** On an established connection a keepalive is refused and the loop goes on. *)
Example keepalive_refused :
  serve_requests false [greeting_request (T := nat) alice; keepalive; keepalive]
  = [Handed "alice"; Replied (greeting_request (T := nat) alice) true;
     Replied keepalive false; Replied keepalive false].
Proof. reflexivity. Qed.

(** C8 fails on the code: the request loop hands every well-formed greeting
    to [nameCh], from which the dialer receives once.  A second greeting on
    the established connection blocks the loop at that send, and the
    keepalive that arrives after it gets no reply at all. *)
Lemma request_after_second_greeting_unanswered :
  let greeting := greeting_request (T := nat) alice in
  let trace := serve_requests false [greeting; greeting; keepalive] in
  trace = [Handed "alice"; Replied greeting true; Stuck "alice"] /\
  forall ok, ~ In (Replied keepalive ok) trace.
Proof.
  intros greeting trace.
  assert (E : trace = [Handed "alice"; Replied greeting true; Stuck "alice"])
    by reflexivity.
  split; [exact E|]. rewrite E.
  intros ok [Hin | [Hin | [Hin | []]]]; discriminate Hin.
Qed.

(** * Part III: further properties of the code *)

(** ** Frames *)

Lemma BigEndian_Uint32_range (b : list byte) (n : Z) :
  BigEndian_Uint32 b = Some n -> 0 <= n < 2 ^ 32.
Proof.
  destruct b as [|b0 [|b1 [|b2 [|b3 l]]]]; try discriminate.
  cbn [BigEndian_Uint32]. intros [= <-].
  pose proof (byte_to_Z_range b0). pose proof (byte_to_Z_range b1).
  pose proof (byte_to_Z_range b2). pose proof (byte_to_Z_range b3).
  set (v := Z.lor _ _).
  assert (Hnn : 0 <= v).
  { subst v. repeat (apply Z.lor_nonneg; split); try apply Z.shiftl_nonneg; lia. }
  assert (Hmod : v mod 2 ^ 32 = v).
  { apply Z.bits_inj'. intros k Hk. rewrite Z.testbit_mod_pow2 by lia.
    destruct (Z.ltb_spec k 32) as [Hlt|Hge]; [reflexivity|]. cbn [andb].
    subst v. rewrite !Z.lor_spec, !Z.shiftl_spec by lia.
    assert (Hb : forall b i, 0 <= b < 256 -> 8 <= i -> Z.testbit b i = false).
    { intros b i Hb Hi. rewrite <- (Z.mod_small b (2 ^ 8)) by (change (2 ^ 8) with 256; lia).
      apply Z.mod_pow2_bits_high. lia. }
    rewrite !Hb by lia. reflexivity. }
  rewrite <- Hmod. apply Z.mod_pos_bound. lia.
Qed.

Section ReadFrame_more.
Context {T : Type} `{ssh_Channel T}.

(** X1: whatever the transport's two [Read] calls bring, a frame that
    [ReadFrame] returns has exactly the length that the four bytes of its
    length slice announce, and that length is below 2^32. *)
Theorem X1_ReadFrame_length (c c' : ssh_channel T) (frame : list byte) :
  ReadFrame c = (Ok frame, c') ->
  BigEndian_Uint32 (stored (make 4) (fst (fst (Read (Channel c) 4))))
  = Some (len frame) /\
  0 <= len frame < 2 ^ 32.
Proof.
  unfold ReadFrame.
  destruct (Read (Channel c) 4) as [[got err] t]. cbn [fst].
  destruct err as [e|]; [discriminate|].
  destruct (BigEndian_Uint32 (stored (make 4) got)) as [n|] eqn:D; [|discriminate].
  pose proof (BigEndian_Uint32_range _ _ D) as Hn.
  destruct (Read t (Z.to_nat n)) as [[got2 err2] t2].
  destruct err2 as [e|]; [discriminate|].
  intros [= <- _]. unfold len. rewrite stored_length, make_length, Z2Nat.id by lia.
  split; [reflexivity | exact Hn].
Qed.

(** X2: [ReadFrame] has no error of its own.  It returns an error exactly
    when its first [Read] returns that error, or its first [Read] returns
    none and its second [Read] returns that error; the channel is left as the
    failing [Read] left it, and a failing first [Read] is not followed by a
    second one. *)
Theorem X2_ReadFrame_errors (c c' : ssh_channel T) (e : error) :
  ReadFrame c = (Err e, c') <->
  (exists got t,
     Read (Channel c) 4 = (got, Some e, t) /\ c' = with_Channel c t) \/
  (exists got t n got2 t2,
     Read (Channel c) 4 = (got, None, t) /\
     BigEndian_Uint32 (stored (make 4) got) = Some n /\
     Read t (Z.to_nat n) = (got2, Some e, t2) /\ c' = with_Channel c t2).
Proof.
  unfold ReadFrame. split.
  - destruct (Read (Channel c) 4) as [[got err] t].
    destruct err as [e1|].
    + intros [= <- <-]. left. exists got, t. split; reflexivity.
    + destruct (length_bytes_decodable got) as [n D]. rewrite D.
      destruct (Read t (Z.to_nat n)) as [[got2 err2] t2] eqn:R2.
      destruct err2 as [e2|]; [|discriminate].
      intros [= <- <-]. right. exists got, t, n, got2, t2. repeat split; assumption.
  - intros [(got & t & R1 & ->) | (got & t & n & got2 & t2 & R1 & D & R2 & ->)].
    + rewrite R1. reflexivity.
    + rewrite R1, D, R2. reflexivity.
Qed.

End ReadFrame_more.

Lemma X1_ReadFrame_length_witness :
  BigEndian_Uint32
    (stored (make 4)
       (fst (fst (Read (Channel (on_pipe (Pipe [WriteFrame_buffer ping]))) 4))))
  = Some (len ping).
Proof.
  refine (proj1 (X1_ReadFrame_length (on_pipe (Pipe [WriteFrame_buffer ping]))
                   (on_pipe (Pipe [])) ping _)).
  reflexivity.
Defined.

(** *** Frames on the in-memory channel: whole, joined, cut short *)

Lemma pipe_read_front (payload more : list byte) (rest : list (list byte)) :
  payload <> [] ->
  pipe_read ((payload ++ more) :: rest) (length payload)
  = (payload, None, Pipe (match more with [] => rest | _ => more :: rest end)).
Proof.
  destruct payload as [|b payload]; [congruence|]. intros _.
  cbn [pipe_read length app]. cbn [firstn]. rewrite take_app_length.
  cbn [skipn]. rewrite drop_app_length.
  destruct more as [|m more].
  - rewrite app_nil_r, Nat.leb_refl. reflexivity.
  - replace (S (length (payload ++ m :: more)) <=? S (length payload))%nat
      with false; [reflexivity|].
    symmetry. apply Nat.leb_gt. rewrite length_app. cbn [length]. lia.
Qed.

Lemma WriteFrame_buffer_length (frame : list byte) :
  length (WriteFrame_buffer frame) = (4 + length frame)%nat.
Proof. rewrite WriteFrame_buffer_eq. reflexivity. Qed.

(** A frame at the head of a burst is read back whatever follows it in the
    burst. *)
Lemma ReadFrame_pipe_joined (m : ssh_channelData) (frame more : list byte)
  (rest : list (list byte)) :
  len frame < 2 ^ 32 ->
  ReadFrame {| Channel := Pipe ((WriteFrame_buffer frame ++ more) :: rest);
               channelData := m |}
  = (Ok frame,
     {| Channel := Pipe (match more with [] => rest | _ => more :: rest end);
        channelData := m |}).
Proof.
  intros Hlen.
  assert (Hr : 0 <= len frame < 2 ^ 32) by (unfold len in *; lia).
  rewrite WriteFrame_buffer_eq. cbv zeta. rewrite (uint32_small _ Hr).
  set (b0 := byte_of_Z _). set (b1 := byte_of_Z _). set (b2 := byte_of_Z _).
  set (b3 := byte_of_Z _). cbn [app].
  rewrite (ReadFrame_two_reads _ [b0; b1; b2; b3] frame
             (Pipe (match frame ++ more with
                    | [] => rest
                    | _ => (frame ++ more) :: rest
                    end))
             (Pipe (match more with [] => rest | _ => more :: rest end))
             (len frame)).
  - unfold len. rewrite Nat2Z.id, stored_full by (symmetry; apply make_length).
    reflexivity.
  - apply pipe_read_header.
  - rewrite stored_full by reflexivity. subst b0 b1 b2 b3.
    apply Uint32_of_prefix. exact Hr.
  - unfold len. rewrite Nat2Z.id. destruct frame as [|b frame].
    + cbn [app length]. destruct more; apply pipe_read_0.
    + cbn [Read pipe_Channel bursts]. apply (pipe_read_front (b :: frame)).
      discriminate.
Qed.

Lemma WriteFrames_pipe (m : ssh_channelData) (frames : list (list byte)) :
  forall bs,
    WriteFrames {| Channel := Pipe bs; channelData := m |} frames
    = (map (fun _ => None) frames,
       {| Channel := Pipe (bs ++ map WriteFrame_buffer frames); channelData := m |}).
Proof.
  induction frames as [|frame frames IH]; intros bs.
  - cbn [WriteFrames map]. rewrite app_nil_r. reflexivity.
  - cbn [WriteFrames map]. rewrite WriteFrame_pipe, IH, <- app_assoc. reflexivity.
Qed.

Lemma ReadFrames_pipe_bursts (m : ssh_channelData) (frames : list (list byte))
  (rest : list (list byte)) :
  Forall (fun frame => len frame < 2 ^ 32) frames ->
  ReadFrames (length frames)
    {| Channel := Pipe (map WriteFrame_buffer frames ++ rest); channelData := m |}
  = (map Ok frames, {| Channel := Pipe rest; channelData := m |}).
Proof.
  induction 1 as [|frame frames Hlen _ IH]; [reflexivity|].
  cbn [length ReadFrames map app].
  rewrite <- (app_nil_r (WriteFrame_buffer frame)).
  rewrite ReadFrame_pipe_joined by exact Hlen. rewrite IH. reflexivity.
Qed.

Lemma ReadFrames_pipe_one_burst (m : ssh_channelData) (frames : list (list byte)) :
  Forall (fun frame => len frame < 2 ^ 32) frames ->
  forall rest,
    fst (ReadFrames (length frames)
           {| Channel := Pipe (concat (map WriteFrame_buffer frames) :: rest);
              channelData := m |})
    = map Ok frames.
Proof.
  induction 1 as [|frame frames Hlen _ IH]; intros rest; [reflexivity|].
  cbn [length ReadFrames map concat].
  rewrite ReadFrame_pipe_joined by exact Hlen.
  destruct (concat (map WriteFrame_buffer frames)) as [|b more] eqn:E.
  - destruct frames as [|f frames']; [reflexivity|].
    apply (f_equal (@length byte)) in E. cbn [map concat] in E.
    rewrite length_app, WriteFrame_buffer_length in E. discriminate E.
  - specialize (IH rest).
    destruct (ReadFrames (length frames) _) as [rs c]. cbn [fst] in *.
    rewrite IH. reflexivity.
Qed.

(** X3: frames come out in the order they went in.  After any number of
    payloads, each shorter than 2^32 bytes, have been written with
    [WriteFrame] to an empty in-memory channel, with no error, as many calls
    of [ReadFrame] return exactly these payloads, in order, and leave the
    channel empty. *)
Theorem X3_frames_first_in_first_out (m : ssh_channelData)
  (frames : list (list byte)) :
  Forall (fun frame => len frame < 2 ^ 32) frames ->
  let c := {| Channel := Pipe []; channelData := m |} in
  fst (WriteFrames c frames) = map (fun _ => None) frames /\
  ReadFrames (length frames) (snd (WriteFrames c frames)) = (map Ok frames, c).
Proof.
  intros Hlen c. subst c. rewrite WriteFrames_pipe. cbn [fst snd app].
  split; [reflexivity|].
  rewrite <- (app_nil_r (map WriteFrame_buffer frames)).
  apply ReadFrames_pipe_bursts. exact Hlen.
Qed.

Lemma X3_frames_first_in_first_out_witness :
  ReadFrames 3
    (snd (WriteFrames {| Channel := Pipe []; channelData := zero_meta |}
            [ping; []; ping]))
  = ([Ok ping; Ok []; Ok ping], {| Channel := Pipe []; channelData := zero_meta |}).
Proof.
  refine (proj2 (X3_frames_first_in_first_out zero_meta [ping; []; ping] _)).
  repeat constructor.
Defined.

(** X4: frames that reach the reader joined together are told apart.  When
    the bytes of any number of frames, each payload shorter than 2^32 bytes,
    arrive as one burst, as many calls of [ReadFrame] return exactly the
    payloads, in order. *)
Theorem X4_joined_frames_are_told_apart (m : ssh_channelData)
  (frames : list (list byte)) (rest : list (list byte)) :
  Forall (fun frame => len frame < 2 ^ 32) frames ->
  fst (ReadFrames (length frames)
         {| Channel := Pipe (concat (map WriteFrame_buffer frames) :: rest);
            channelData := m |})
  = map Ok frames.
Proof. intros Hlen. apply ReadFrames_pipe_one_burst. exact Hlen. Qed.

Lemma X4_joined_frames_are_told_apart_witness :
  fst (ReadFrames 2
         (on_pipe (Pipe [WriteFrame_buffer ping ++ WriteFrame_buffer [] ++ []])))
  = [Ok ping; Ok []].
Proof.
  refine (X4_joined_frames_are_told_apart _ [ping; []] [] _).
  repeat constructor.
Defined.

(** X5: a payload that has arrived only in part is handed out as if it were
    whole.  When the burst at the head of the channel holds the length of a
    frame and only the first [k] bytes of its payload, with [0 < k] and [k]
    below the payload's length, [ReadFrame] returns, with no error, these [k]
    bytes followed by zero bytes up to the declared length; the bytes that
    arrive later stay in the channel. *)
Theorem X5_partial_payload_is_padded (m : ssh_channelData) (frame : list byte)
  (k : nat) (rest : list (list byte)) :
  len frame < 2 ^ 32 ->
  (0 < k < length frame)%nat ->
  ReadFrame {| Channel := Pipe (firstn (4 + k) (WriteFrame_buffer frame) :: rest);
               channelData := m |}
  = (Ok (firstn k frame ++ repeat x00 (length frame - k)),
     {| Channel := Pipe rest; channelData := m |}).
Proof.
  intros Hlen Hk.
  assert (Hr : 0 <= len frame < 2 ^ 32) by (unfold len in *; lia).
  rewrite WriteFrame_buffer_eq. cbv zeta. rewrite (uint32_small _ Hr).
  set (b0 := byte_of_Z _). set (b1 := byte_of_Z _). set (b2 := byte_of_Z _).
  set (b3 := byte_of_Z _).
  change (firstn (4 + k) (b0 :: b1 :: b2 :: b3 :: frame))
    with (b0 :: b1 :: b2 :: b3 :: firstn k frame).
  assert (Hne : firstn k frame <> []).
  { intros E. apply (f_equal (@length byte)) in E.
    rewrite length_take in E. cbn [length] in E. lia. }
  rewrite (ReadFrame_two_reads _ [b0; b1; b2; b3] (firstn k frame)
             (Pipe (firstn k frame :: rest)) (Pipe rest) (len frame)).
  - unfold len. rewrite Nat2Z.id.
    rewrite stored_short by (rewrite make_length, length_take; lia).
    rewrite skipn_make, length_take. unfold make.
    replace (k `min` length frame)%nat with k by lia. reflexivity.
  - cbn [Read pipe_Channel Channel bursts]. rewrite pipe_read_header.
    destruct (firstn k frame); [congruence | reflexivity].
  - rewrite stored_full by reflexivity. subst b0 b1 b2 b3.
    apply Uint32_of_prefix. exact Hr.
  - unfold len. rewrite Nat2Z.id. cbn [Read pipe_Channel bursts].
    destruct (firstn k frame) as [|b part] eqn:E; [congruence|].
    destruct (length frame) as [|n] eqn:L; [lia|].
    cbn [pipe_read].
    assert (Hlp : (length (b :: part) <= S n)%nat).
    { rewrite <- E, length_take. lia. }
    replace (length (b :: part) <=? S n)%nat with true
      by (symmetry; apply Nat.leb_le; exact Hlp).
    rewrite take_ge by exact Hlp. reflexivity.
Qed.

Lemma X5_partial_payload_is_padded_witness :
  ReadFrame (on_pipe (Pipe [firstn (4 + 3) (WriteFrame_buffer ping); skipn 7 (WriteFrame_buffer ping)]))
  = (Ok ["p"; "i"; "n"; x00]%byte, on_pipe (Pipe [["g"]%byte])).
Proof.
  refine (X5_partial_payload_is_padded _ ping 3 [["g"]%byte] _ _).
  - reflexivity.
  - cbn [ping length]. lia.
Defined.

Lemma ReadFrame_second_error {T : Type} `{ssh_Channel T} (c : ssh_channel T)
  (hdr body : list byte) (t1 t2 : T) (n : Z) (e : error) :
  Read (Channel c) 4 = (hdr, None, t1) ->
  BigEndian_Uint32 (stored (make 4) hdr) = Some n ->
  Read t1 (Z.to_nat n) = (body, Some e, t2) ->
  ReadFrame c = (Err e, with_Channel c t2).
Proof.
  intros R1 D R2. unfold ReadFrame. rewrite R1. cbv zeta. rewrite D, R2.
  reflexivity.
Qed.

(** X6: a stream that ends right after the length of a frame with a
    non-empty payload gives [io.EOF] and no frame; so does a stream with
    nothing in it. *)
Theorem X6_end_of_stream (m : ssh_channelData) (frame : list byte) :
  len frame < 2 ^ 32 -> frame <> [] ->
  ReadFrame {| Channel := Pipe [firstn 4 (WriteFrame_buffer frame)]; channelData := m |}
  = (Err EOF, {| Channel := Pipe []; channelData := m |}) /\
  ReadFrame {| Channel := Pipe []; channelData := m |}
  = (Err EOF, {| Channel := Pipe []; channelData := m |}).
Proof.
  intros Hlen Hne. split; [|reflexivity].
  assert (Hr : 0 <= len frame < 2 ^ 32) by (unfold len in *; lia).
  rewrite WriteFrame_buffer_eq. cbv zeta. rewrite (uint32_small _ Hr).
  set (b0 := byte_of_Z _). set (b1 := byte_of_Z _). set (b2 := byte_of_Z _).
  set (b3 := byte_of_Z _). cbn [firstn].
  rewrite (ReadFrame_second_error _ [b0; b1; b2; b3] [] (Pipe []) (Pipe [])
             (len frame) EOF).
  - reflexivity.
  - reflexivity.
  - rewrite stored_full by reflexivity. subst b0 b1 b2 b3.
    apply Uint32_of_prefix. exact Hr.
  - unfold len. rewrite Nat2Z.id. destruct frame; [congruence | reflexivity].
Qed.

Lemma X6_end_of_stream_witness :
  ReadFrame (on_pipe (Pipe [[x00; x00; x00; x04]]%byte))
  = (Err EOF, on_pipe (Pipe [])).
Proof.
  refine (proj1 (X6_end_of_stream _ ping _ _)).
  - reflexivity.
  - discriminate.
Defined.

(** ** The dispatch loop, the opens taken in turn *)

Section Accept_more.
Context {T : Type} `{ssh_Codec ssh_channelData}.

(** What one run of the goroutine's body leaves behind. *)
Lemma accept_duplex_facts (newCh : ssh_NewChannel T) (meta : ssh_channelData)
  (peer : Peer T) :
  let r := accept_duplex newCh meta peer in
  exists added,
    incomingCh (snd (fst r)) = incomingCh peer ++ added /\
    conns (snd (fst r)) = conns peer /\
    options (snd (fst r)) = options peer /\
    Forall (fun c => Service (channelData c) <> ""
                     /\ nc_Accept newCh = Ok (Channel c)) added /\
    length added = length (List.filter is_Accepted (snd r)) /\
    length (List.filter is_outcome (snd r)) = 1%nat /\
    Forall (fun e => e <> conn_Close /\
                     (effect_id e = None \/ effect_id e = Some (nc_id newCh)))
      (snd r).
Proof.
  unfold accept_duplex.
  destruct (Unmarshal (ExtraData newCh) meta) as [[e|] decoded];
    [|destruct (String.eqb_spec (Service decoded) "") as [Hs|Hs];
      [|destruct (nc_Accept newCh) as [ch|e] eqn:A]].
  4: exists []. 3: exists [{| Channel := ch; channelData := decoded |}].
  1, 2: exists [].
  all: cbn; rewrite ?app_nil_r.
  all: repeat split; auto.
  all: repeat (constructor; try split); try discriminate; auto.
Qed.

Lemma accept_loop_facts (chans : list (ssh_NewChannel T)) :
  forall (meta : ssh_channelData) (peer : Peer T),
    let r := accept_loop chans meta peer in
    exists added,
      incomingCh (snd (fst r)) = incomingCh peer ++ added /\
      conns (snd (fst r)) = conns peer /\
      options (snd (fst r)) = options peer /\
      Forall (fun c => Service (channelData c) <> "" /\
                       exists newCh, In newCh chans /\ is_duplex newCh = true /\
                                     nc_Accept newCh = Ok (Channel c)) added /\
      length added = length (List.filter is_Accepted (snd r)) /\
      length (List.filter is_outcome (snd r)) = length (List.filter is_duplex chans) /\
      Forall (fun e => e <> conn_Close /\
                       (effect_id e = None \/
                        exists newCh, In newCh chans /\ is_duplex newCh = true /\
                                      effect_id e = Some (nc_id newCh))) (snd r).
Proof.
  induction chans as [|newCh chans IH]; intros meta peer.
  - exists []. cbn. rewrite app_nil_r. repeat split; auto.
  - cbn [accept_loop List.filter].
    change (is_duplex newCh) with (String.eqb (ChannelType newCh) "@duplex").
    destruct (String.eqb (ChannelType newCh) "@duplex") eqn:Hty.
    + destruct (accept_duplex_facts newCh meta peer)
        as (a1 & Q1 & C1 & O1 & F1 & N1 & K1 & E1).
      destruct (accept_duplex newCh meta peer) as [[meta1 peer1] done1].
      cbn [fst snd] in *.
      destruct (IH meta1 peer1) as (a2 & Q2 & C2 & O2 & F2 & N2 & K2 & E2).
      destruct (accept_loop chans meta1 peer1) as [[meta2 peer2] done2].
      cbn [fst snd] in *.
      exists (a1 ++ a2). rewrite !List.filter_app, !length_app.
      split; [rewrite Q2, Q1, app_assoc; reflexivity|].
      split; [congruence|]. split; [congruence|].
      split; [|split; [lia|split; [cbn [length]; lia|]]].
      * apply Forall_app. split.
        -- eapply Forall_impl; [exact F1|]. intros c [Hs Ha]. split; [exact Hs|].
           exists newCh. split; [left; reflexivity|]. split; assumption.
        -- eapply Forall_impl; [exact F2|].
           intros c [Hs (n & Hin & Hd & Ha)]. split; [exact Hs|].
           exists n. split; [right; exact Hin|]. split; assumption.
      * apply Forall_app. split.
        -- eapply Forall_impl; [exact E1|]. intros e [Hc [Hn|Hi]].
           ++ split; [exact Hc | left; exact Hn].
           ++ split; [exact Hc|]. right. exists newCh.
              split; [left; reflexivity|]. split; assumption.
        -- eapply Forall_impl; [exact E2|]. intros e [Hc [Hn|(n & Hin & Hd & Hi)]].
           ++ split; [exact Hc | left; exact Hn].
           ++ split; [exact Hc|]. right. exists n.
              split; [right; exact Hin|]. split; assumption.
    + destruct (IH meta peer) as (a2 & Q2 & C2 & O2 & F2 & N2 & K2 & E2).
      exists a2. split; [exact Q2|]. split; [exact C2|]. split; [exact O2|].
      split; [|split; [exact N2|split; [exact K2|]]].
      * eapply Forall_impl; [exact F2|].
        intros c [Hs (n & Hin & Hd & Ha)]. split; [exact Hs|].
        exists n. split; [right; exact Hin|]. split; assumption.
      * eapply Forall_impl; [exact E2|]. intros e [Hc [Hn|(n & Hin & Hd & Hi)]].
        -- split; [exact Hc | left; exact Hn].
        -- split; [exact Hc|]. right. exists n.
           split; [right; exact Hin|]. split; assumption.
Qed.

(** X7: what the dispatch loop puts on the intake queue, the opens taken in
    turn.  The channels already queued stay in front, in order; every channel
    added has a non-empty service and is the channel the transport gave for
    one of the [@duplex] opens of the run; the registry of connections and
    the options of the peer are untouched. *)
Theorem X7_queue_after_dispatch (chans : list (ssh_NewChannel T)) (peer : Peer T) :
  let peer' := fst (ssh_acceptChannels chans peer) in
  exists added,
    incomingCh peer' = incomingCh peer ++ added /\
    Forall (fun c => Service_of c <> "" /\
                     exists newCh, In newCh chans /\ ChannelType newCh = "@duplex" /\
                                   nc_Accept newCh = Ok (Channel c)) added /\
    conns peer' = conns peer /\
    options peer' = options peer.
Proof.
  unfold ssh_acceptChannels.
  destruct (accept_loop_facts chans zero_meta peer)
    as (added & Q & C & O & F & _).
  destruct (accept_loop chans zero_meta peer) as [[meta' peer'] done].
  cbn [fst snd] in *. exists added.
  split; [exact Q|]. split; [|split; assumption].
  eapply Forall_impl; [exact F|].
  intros c [Hs (n & Hin & Hd & Ha)]. split; [exact Hs|].
  exists n. split; [exact Hin|]. split; [|exact Ha].
  apply String.eqb_eq. exact Hd.
Qed.

(** X8: the dispatch loop accounts for every open, the opens taken in turn.
    The handling of each [@duplex] open ends in exactly one of a rejection, an
    accept, or the logged failure of an accept, and opens of other types add
    nothing: the number of these outcomes is the number of [@duplex] opens.
    Every rejection and every accept names an [@duplex] open of the run; the
    channels added to the intake queue are as many as the accepts; and the
    loop never closes the connection. *)
Theorem X8_every_duplex_open_accounted_for (chans : list (ssh_NewChannel T))
  (peer : Peer T) :
  let peer' := fst (ssh_acceptChannels chans peer) in
  let done := snd (ssh_acceptChannels chans peer) in
  length (List.filter is_outcome done) = length (List.filter is_duplex chans) /\
  length (incomingCh peer')
  = (length (incomingCh peer) + length (List.filter is_Accepted done))%nat /\
  Forall (fun e => e <> conn_Close /\
                   forall id, effect_id e = Some id ->
                     exists newCh, In newCh chans /\
                                   ChannelType newCh = "@duplex" /\
                                   nc_id newCh = id) done.
Proof.
  unfold ssh_acceptChannels.
  destruct (accept_loop_facts chans zero_meta peer)
    as (added & Q & _ & _ & _ & N & K & E).
  destruct (accept_loop chans zero_meta peer) as [[meta' peer'] done].
  cbn [fst snd] in *.
  split; [exact K|]. split; [rewrite Q, length_app; lia|].
  eapply Forall_impl; [exact E|].
  intros e [Hc Hid]. split; [exact Hc|]. intros id Hsome.
  destruct Hid as [Hn | (n & Hin & Hd & Hi)]; [congruence|].
  exists n. split; [exact Hin|]. split; [apply String.eqb_eq; exact Hd | congruence].
Qed.

End Accept_more.

(** ** The dispatch loop under every schedule *)

Lemma filter_length_le {A : Type} (f : A -> bool) (l : list A) :
  (length (List.filter f l) <= length l)%nat.
Proof.
  induction l as [|a l IH]; [reflexivity|]. cbn [List.filter].
  destruct (f a); cbn [length]; lia.
Qed.

Lemma filter_insert_length {A : Type} (f : A -> bool) (l : list A) :
  forall (k : nat) (g g' : A),
    l !! k = Some g -> f g = false ->
    length (List.filter f (<[k := g']> l))
    = (length (List.filter f l) + (if f g' then 1 else 0))%nat.
Proof.
  induction l as [|a l IH]; intros k g g' Hk Hg; [discriminate|].
  destruct k as [|k].
  - injection Hk as ->.
    change (<[0%nat := g']> (g :: l)) with (g' :: l).
    cbn [List.filter]. rewrite Hg.
    destruct (f g'); cbn [length]; lia.
  - change (<[S k := g']> (a :: l)) with (a :: <[k := g']> l).
    cbn [List.filter].
    destruct (f a); cbn [length]; rewrite (IH k g g' Hk Hg); lia.
Qed.

Section Schedules.
Context {T : Type} `{ssh_Codec ssh_channelData}.
Variable lv : loopvar.
Variable chans : list (ssh_NewChannel T).
Variable peer0 : Peer T.

Lemma dispatch_invariant_init : dispatch_invariant lv chans peer0 (accept_init chans peer0).
Proof.
  unfold dispatch_invariant, accept_init. cbn.
  repeat split; auto; try discriminate.
  exists []. rewrite app_nil_r. repeat split; auto.
Qed.

(** What a goroutine does to a state that satisfies the invariant. *)
Lemma dispatch_invariant_go_step (st : @accept_state T) (k : nat) (g : @goroutine T)
  (at' : @pc T) (meta : ssh_channelData) (eff : list effect) (peer : Peer T) :
  dispatch_invariant lv chans peer0 st ->
  st_gos st !! k = Some g ->
  is_returned g = false ->
  (forall ch, at' = AtPush ch -> from_open lv chans ch) ->
  (peer = st_peer st \/
   exists ch, at_pc g = AtPush ch /\ at' = Returned /\
              peer = send_incomingCh (st_peer st) {| Channel := ch; channelData := meta |}) ->
  dispatch_invariant lv chans peer0 (go_step st k g at' meta eff peer).
Proof.
  intros (Hn & Hch & Hnc & Hg & added & Hq & Hadd & Hlen & Hc & Ho) Hk Hr Hat Hpeer.
  pose proof (proj1 (Forall_lookup _ _) Hg k g Hk) as (Hown & Hdup & Hpush).
  unfold dispatch_invariant, go_step. cbn [st_gos st_chans st_newCh st_peer].
  rewrite length_insert.
  split; [exact Hn|]. split; [exact Hch|]. split; [exact Hnc|].
  split.
  { apply Forall_insert; [exact Hg|]. cbn [own_newCh at_pc].
    split; [exact Hown|]. split; [exact Hdup | exact Hat]. }
  rewrite (filter_insert_length is_returned (st_gos st) k g _ Hk Hr).
  destruct Hpeer as [-> | (ch & Hgat & -> & ->)].
  - exists added. split; [exact Hq|]. split; [exact Hadd|].
    split; [lia|]. split; assumption.
  - exists (added ++ [{| Channel := ch; channelData := meta |}]).
    cbn [send_incomingCh incomingCh conns options].
    split; [rewrite Hq, app_assoc; reflexivity|].
    split; [apply Forall_app; split; [exact Hadd|];
            constructor; [exact (Hpush ch Hgat) | constructor]|].
    split; [rewrite length_app; cbn [length is_returned at_pc]; lia|].
    split; assumption.
Qed.

Lemma dispatch_invariant_step (t : thread) (st st' : @accept_state T) :
  dispatch_invariant lv chans peer0 st ->
  step lv t st = Some st' ->
  dispatch_invariant lv chans peer0 st'.
Proof.
  intros Inv Hstep. destruct t as [|k]; cbn [step] in Hstep.
  - destruct Inv as (Hn & Hch & Hnc & Hg & added & Hq & Hadd & Hlen & Hc & Ho).
    destruct (st_chans st) as [|newCh chans'] eqn:Ech; [discriminate|].
    injection Hstep as <-. unfold dispatch_invariant.
    cbn [st_gos st_chans st_newCh st_peer].
    cbn [List.filter] in Hn.
    change (is_duplex newCh) with (String.eqb (ChannelType newCh) "@duplex") in Hn.
    assert (Hin : In newCh chans) by (apply Hch; left; reflexivity).
    rewrite length_app, List.filter_app, length_app.
    destruct (String.eqb (ChannelType newCh) "@duplex") eqn:Hty.
    + cbn [length List.filter is_returned at_pc] in *.
      split; [lia|]. split; [intros c Hc'; apply Hch; right; exact Hc'|].
      split; [intros c [= <-]; exact Hin|].
      split.
      { apply Forall_app. split; [exact Hg|]. constructor; [|constructor].
        cbn [own_newCh at_pc]. split; [exact Hin|]. split; [exact Hty|].
        discriminate. }
      exists added. split; [exact Hq|]. split; [exact Hadd|].
      split; [lia|]. split; assumption.
    + cbn [length List.filter] in *.
      split; [lia|]. split; [intros c Hc'; apply Hch; right; exact Hc'|].
      split; [intros c [= <-]; exact Hin|].
      split; [rewrite app_nil_r; exact Hg|].
      exists added. split; [exact Hq|]. split; [exact Hadd|].
      split; [lia|]. split; assumption.
  - destruct (st_gos st !! k) as [g|] eqn:Hk; [|discriminate].
    pose proof Inv as (_ & _ & Hnc & Hg & _).
    pose proof (proj1 (Forall_lookup _ _) Hg k g Hk) as (Hown & Hdup & Hpush).
    assert (Hcur : In (newCh_of lv st g) chans /\
                   (lv = PerIteration -> is_duplex (newCh_of lv st g) = true)).
    { destruct lv; cbn [newCh_of].
      - destruct (st_newCh st) as [c|] eqn:Enc; cbn [default].
        + split; [apply Hnc; reflexivity | discriminate].
        + split; [exact Hown | discriminate].
      - split; [exact Hown | intros _; exact Hdup]. }
    destruct Hcur as [Hcin Hcdup].
    destruct (at_pc g) as [| [e|] | | ch |] eqn:Hat.
    + destruct (Unmarshal (ExtraData (newCh_of lv st g)) (st_meta st)) as [err meta].
      injection Hstep as <-.
      apply dispatch_invariant_go_step; auto.
      * unfold is_returned. rewrite Hat. reflexivity.
      * discriminate.
    + injection Hstep as <-.
      apply dispatch_invariant_go_step; auto.
      * unfold is_returned. rewrite Hat. reflexivity.
      * discriminate.
    + destruct (String.eqb (Service (st_meta st)) ""); injection Hstep as <-;
        (apply dispatch_invariant_go_step; auto;
         [unfold is_returned; rewrite Hat; reflexivity | discriminate]).
    + destruct (nc_Accept (newCh_of lv st g)) as [ch|e] eqn:Hacc;
        injection Hstep as <-;
        (apply dispatch_invariant_go_step; auto;
         [unfold is_returned; rewrite Hat; reflexivity|]).
      * intros ch' [= <-]. exists (newCh_of lv st g). repeat split; assumption.
      * discriminate.
    + injection Hstep as <-.
      apply dispatch_invariant_go_step; auto.
      * unfold is_returned. rewrite Hat. reflexivity.
      * discriminate.
      * right. exists ch. repeat split. exact Hat.
    + discriminate.
Qed.

Lemma dispatch_invariant_run (schedule : list thread) :
  forall st st' : @accept_state T,
    dispatch_invariant lv chans peer0 st ->
    run lv schedule st = Some st' ->
    dispatch_invariant lv chans peer0 st'.
Proof.
  induction schedule as [|t schedule IH]; intros st st' Inv Hrun; cbn [run] in Hrun.
  - injection Hrun as <-. exact Inv.
  - destruct (step lv t st) as [st1|] eqn:Hstep; [|discriminate].
    apply (IH st1 st'); [|exact Hrun].
    apply (dispatch_invariant_step t st st1 Inv Hstep).
Qed.

(** X9: what no schedule of the goroutines can break.  However the steps of
    the loop and of the goroutines it starts interleave, the channels already
    on the intake queue stay in front, in order; every channel added is one
    the transport gave when an open of this connection was accepted (with one
    [newCh] per iteration: an [@duplex] open); no more channels are added
    than there are [@duplex] opens; and the registry of connections and the
    options of the peer are untouched. *)
Theorem X9_dispatch_under_every_schedule (schedule : list thread)
  (st' : @accept_state T) :
  run lv schedule (accept_init chans peer0) = Some st' ->
  exists added,
    incomingCh (st_peer st') = incomingCh peer0 ++ added /\
    Forall (fun c => exists newCh,
                       In newCh chans /\ nc_Accept newCh = Ok (Channel c) /\
                       (lv = PerIteration -> ChannelType newCh = "@duplex")) added /\
    (length added <= length (List.filter is_duplex chans))%nat /\
    conns (st_peer st') = conns peer0 /\
    options (st_peer st') = options peer0.
Proof.
  intros Hrun.
  destruct (dispatch_invariant_run schedule _ _ dispatch_invariant_init Hrun)
    as (Hn & _ & _ & _ & added & Hq & Hadd & Hlen & Hc & Ho).
  exists added. split; [exact Hq|]. split; [|split; [|split; assumption]].
  - eapply Forall_impl; [exact Hadd|]. intros c (n & Hin & Ha & Hd).
    exists n. split; [exact Hin|]. split; [exact Ha|]. intros E.
    apply String.eqb_eq. exact (Hd E).
  - pose proof (filter_length_le is_returned (st_gos st')). lia.
Qed.

End Schedules.


Lemma X9_dispatch_under_every_schedule_witness :
  exists added,
    incomingCh alice ++ added
    = [{| Channel := 1%nat; channelData := {| Service := "b"; Headers := ["y"] |} |};
       {| Channel := 2%nat; channelData := {| Service := "b"; Headers := ["y"] |} |}] /\
    (length added <= 2)%nat.
Proof.
  assert (Hrun : exists st', run PerLoop racy_schedule
              (accept_init [open_duplex 1 "a" ["x"]; open_duplex 2 "b" ["y"]] alice) = Some st'
              /\ incomingCh (st_peer st') = [{| Channel := 1%nat; channelData := {| Service := "b"; Headers := ["y"] |} |};
       {| Channel := 2%nat; channelData := {| Service := "b"; Headers := ["y"] |} |}]).
  { eexists. split; [vm_compute; reflexivity | reflexivity]. }
  destruct Hrun as (st' & Hrun & Hq').
  destruct (X9_dispatch_under_every_schedule PerLoop
              [open_duplex 1 "a" ["x"]; open_duplex 2 "b" ["y"]] alice
              racy_schedule st' Hrun) as (added & Hq & _ & Hlen & _).
  exists added. split; [|exact Hlen].
  rewrite <- Hq. exact Hq'.
Defined.

(** X10: the non-empty service of a queued channel does not survive
    concurrency.  Take two [@duplex] opens that decode, the first with a
    non-empty service, the second with an empty one, and let the second
    goroutine decode between the first goroutine's accept and its push: the
    first open is accepted and its channel is put on the intake queue with
    the empty service of the second, which is rejected. *)
Theorem X10_empty_service_can_be_queued {T : Type} `{ssh_Codec ssh_channelData}
  (lv : loopvar) (a b : ssh_NewChannel T) (ma mb : ssh_channelData) (cha : T)
  (peer : Peer T) :
  ChannelType a = "@duplex" -> ChannelType b = "@duplex" ->
  (forall m, Unmarshal (ExtraData a) m = (None, ma)) ->
  (forall m, Unmarshal (ExtraData b) m = (None, mb)) ->
  Service ma <> "" -> Service mb = "" ->
  nc_Accept a = Ok cha ->
  option_map (fun st => (incomingCh (st_peer st), List.filter is_outcome (st_done st)))
    (run lv racy_schedule_check (accept_init [a; b] peer))
  = Some (incomingCh peer ++ [{| Channel := cha; channelData := mb |}],
          [Accepted (nc_id a);
           Reject (nc_id b) UnknownChannelType "empty service"]).
Proof.
  intros Hta Htb Hda Hdb Hsa Hsb Haa.
  apply String.eqb_neq in Hsa. apply String.eqb_eq in Hsb.
  unfold racy_schedule_check, accept_init.
  destruct lv;
    repeat (cbn; rewrite ?Hta, ?Htb, ?String.eqb_refl, ?Hda, ?Hdb, ?Hsa, ?Hsb, ?Haa);
    reflexivity.
Qed.

Lemma X10_empty_service_can_be_queued_witness :
  option_map (fun st => incomingCh (st_peer st))
    (run PerIteration racy_schedule_check
       (accept_init [open_duplex 1 "a" ["x"]; open_duplex 2 "" ["y"]] alice))
  = Some [{| Channel := 1%nat; channelData := {| Service := ""; Headers := ["y"] |} |}].
Proof.
  pose proof (X10_empty_service_can_be_queued PerIteration
                (open_duplex 1 "a" ["x"]) (open_duplex 2 "" ["y"])
                {| Service := "a"; Headers := ["x"] |}
                {| Service := ""; Headers := ["y"] |} 1%nat alice
                eq_refl eq_refl (fun _ => eq_refl) (fun _ => eq_refl)
                ltac:(discriminate) eq_refl eq_refl) as W.
  destruct (run PerIteration racy_schedule_check _) as [st|]; [|discriminate W].
  cbn [option_map] in *. injection W as W _. rewrite W. reflexivity.
Defined.

(** ** More on the acceptor's side *)

Section Listener_more.
Context {T : Type} `{ssh_Codec ssh_greetingPayload} `{ssh_Codec ssh_channelData}.
Variable ServerConfig : Type.
Variable NewServerConn :
  net_Conn -> ServerConfig ->
  result (ssh_Conn * list (ssh_NewChannel T) * list ssh_Request).

(** X11: a connection that is greeted.  When the handshake succeeds and the
    greeting is acknowledged, the connection is put into the registry under
    its remote address, with the user name of the handshake as its name; its
    inbound opens are dispatched; the connection is closed when the opens run
    out, and its entry is still in the registry then.  The channels put on
    the intake queue come after those already there and have non-empty
    services, the opens taken in turn. *)
Theorem X11_greeted_connection (netConn : net_Conn) (config : ServerConfig)
  (peer : Peer T) (sshConn : ssh_Conn) (chans : list (ssh_NewChannel T))
  (reqs : list ssh_Request) (reply : list byte) :
  NewServerConn netConn config = Ok (sshConn, chans, reqs) ->
  SendRequest sshConn "@duplex-greeting" true
    (Marshal {| Name := GetOption peer OptName |}) = (true, reply, None) ->
  let entry :=
    {| addr := RemoteAddr_Network netConn +:+ "://" +:+ RemoteAddr_String netConn;
       name := User sshConn; conn := sshConn |} in
  let registered := set_conn peer (RemoteAddr_String netConn) entry in
  let peer' := fst (ssh_handleConn ServerConfig NewServerConn netConn config peer) in
  let done := snd (ssh_handleConn ServerConfig NewServerConn netConn config peer) in
  peer' = fst (ssh_acceptChannels chans registered) /\
  done = snd (ssh_acceptChannels chans registered) ++ [conn_Close] /\
  conns peer' = <[RemoteAddr_String netConn := entry]> (conns peer) /\
  conns peer' !! RemoteAddr_String netConn = Some entry /\
  exists added,
    incomingCh peer' = incomingCh peer ++ added /\
    Forall (fun c => Service_of c <> "") added.
Proof.
  intros Hs Hg entry registered peer' done. subst peer' done.
  unfold ssh_handleConn. rewrite Hs. cbv zeta.
  cbn [greeting_request ReqType WantReply Payload GetOption set_conn options].
  fold (GetOption peer OptName). rewrite Hg. cbn [is_error negb orb].
  fold entry. fold (set_conn peer (RemoteAddr_String netConn) entry). fold registered.
  unfold ssh_acceptChannels.
  destruct (accept_loop_facts chans zero_meta registered)
    as (added & Q & C & _ & F & _).
  destruct (accept_loop chans zero_meta registered) as [[meta' peer'] done].
  cbn [fst snd] in *.
  split; [reflexivity|]. split; [reflexivity|].
  split; [rewrite C; reflexivity|].
  split; [rewrite C; apply lookup_insert_eq|].
  exists added. split; [exact Q|].
  eapply Forall_impl; [exact F|]. intros c [Hne _]. exact Hne.
Qed.

(** What every path of [ssh_handleConn] has in common. *)
Lemma handleConn_facts (netConn : net_Conn) (config : ServerConfig)
  (peer : Peer T) :
  let peer' := fst (ssh_handleConn ServerConfig NewServerConn netConn config peer) in
  let done := snd (ssh_handleConn ServerConfig NewServerConn netConn config peer) in
  (exists before, done = before ++ [conn_Close] /\
                  Forall (fun e => e <> conn_Close) before) /\
  options peer' = options peer /\
  (forall key, key <> RemoteAddr_String netConn ->
               conns peer' !! key = conns peer !! key) /\
  (forall key, is_Some (conns peer !! key) -> is_Some (conns peer' !! key)) /\
  (forall e, NewServerConn netConn config = Err e -> peer' = peer).
Proof.
  intros peer' done. subst peer' done. unfold ssh_handleConn.
  destruct (NewServerConn netConn config) as [[[sshConn chans] reqs]|e0].
  - cbv zeta.
    set (entry := {| addr := _; name := _; conn := _ |}).
    set (registered := set_conn peer (RemoteAddr_String netConn) entry).
    assert (Hkeep : forall key, is_Some (conns peer !! key) ->
                                is_Some (conns registered !! key)).
    { intros key Hk. cbn [registered set_conn conns].
      destruct (decide (RemoteAddr_String netConn = key)) as [<-|Hne].
      - rewrite lookup_insert_eq. eexists; reflexivity.
      - rewrite lookup_insert_ne by exact Hne. exact Hk. }
    assert (Hother : forall key, key <> RemoteAddr_String netConn ->
                                 conns registered !! key = conns peer !! key).
    { intros key Hne. cbn [registered set_conn conns].
      apply lookup_insert_ne. congruence. }
    destruct (SendRequest sshConn _ _ _) as [[ok reply] err].
    destruct (is_error err || negb ok).
    + cbn [fst snd]. split; [|split; [reflexivity|split; [exact Hother|split; [exact Hkeep|discriminate]]]].
      exists [log_Println "debug: failed to greet:"].
      split; [reflexivity|]. repeat constructor. discriminate.
    + unfold ssh_acceptChannels.
      destruct (accept_loop_facts chans zero_meta registered)
        as (added & _ & C & O & _ & _ & _ & E).
      destruct (accept_loop chans zero_meta registered) as [[meta' peer'] done].
      cbn [fst snd] in *.
      split; [|split; [exact O|split; [|split; [|discriminate]]]].
      * exists done. split; [reflexivity|].
        eapply Forall_impl; [exact E|]. intros e [Hne _]. exact Hne.
      * intros key Hne. rewrite C. apply Hother. exact Hne.
      * intros key Hk. rewrite C. apply Hkeep. exact Hk.
  - cbn [fst snd]. split; [|split; [reflexivity|split; [reflexivity|split; [auto|reflexivity]]]].
    exists [log_Println "debug: failed to handshake:"].
    split; [reflexivity|]. repeat constructor. discriminate.
Qed.

(** X12: what [ssh_handleConn] does on every path.  It closes the connection
    exactly once, as the last thing it does.  It leaves the options of the
    peer alone, removes no entry from the registry, changes no entry of
    another address, and adds none but under the remote address of the
    connection; a failed handshake leaves the whole peer as it was. *)
Theorem X12_handleConn_on_every_path (netConn : net_Conn) (config : ServerConfig)
  (peer : Peer T) :
  let peer' := fst (ssh_handleConn ServerConfig NewServerConn netConn config peer) in
  let done := snd (ssh_handleConn ServerConfig NewServerConn netConn config peer) in
  (exists before, done = before ++ [conn_Close] /\
                  Forall (fun e => e <> conn_Close) before) /\
  options peer' = options peer /\
  (forall key, key <> RemoteAddr_String netConn ->
               conns peer' !! key = conns peer !! key) /\
  (forall key, is_Some (conns peer !! key) -> is_Some (conns peer' !! key)) /\
  (forall e, NewServerConn netConn config = Err e -> peer' = peer).
Proof. apply handleConn_facts. Qed.

End Listener_more.

Lemma X11_greeted_connection_witness :
  conns (fst (ssh_handleConn unit
                (handshake_gives granting [open_duplex 1 "echo" ["v=1"]] [])
                from_bob tt alice))
  !! "10.0.0.2:4242"
  = Some {| addr := "tcp://10.0.0.2:4242"; name := "alice"; conn := granting |}.
Proof.
  refine (proj1 (proj2 (proj2 (proj2
            (X11_greeted_connection unit
               (handshake_gives granting [open_duplex 1 "echo" ["v=1"]] [])
               from_bob tt alice granting [open_duplex 1 "echo" ["v=1"]] [] []
               eq_refl eq_refl))))).
Defined.

(** ** More on the dialer's side *)

Section Requests_more.
Context `{ssh_Codec ssh_greetingPayload}.

Lemma serve_requests_skips (taken : bool) (r : ssh_Request)
  (reqs : list ssh_Request) :
  greeting_name r = None ->
  serve_requests taken (r :: reqs) = refusals [r] ++ serve_requests taken reqs.
Proof.
  unfold greeting_name, refusals, is_greeting. cbn [serve_requests List.filter].
  destruct (String.eqb (ReqType r) "@duplex-greeting"); cbn [negb map app].
  - destruct (Unmarshal (Payload r) {| Name := "" |}) as [[e|] g];
      [reflexivity | discriminate].
  - reflexivity.
Qed.

Lemma refusals_app (l1 l2 : list ssh_Request) :
  refusals (l1 ++ l2) = refusals l1 ++ refusals l2.
Proof. unfold refusals. rewrite List.filter_app, map_app. reflexivity. Qed.

Lemma serve_requests_before (taken : bool) (pre rest : list ssh_Request) :
  Forall (fun r => greeting_name r = None) pre ->
  serve_requests taken (pre ++ rest) = refusals pre ++ serve_requests taken rest.
Proof.
  induction 1 as [|r pre Hr _ IH]; [reflexivity|].
  cbn [app]. rewrite serve_requests_skips by exact Hr. rewrite IH.
  change (r :: pre) with ([r] ++ pre). rewrite refusals_app, <- app_assoc.
  reflexivity.
Qed.

Lemma serve_requests_first (r : ssh_Request) (reqs : list ssh_Request) (n : string) :
  greeting_name r = Some n ->
  serve_requests false (r :: reqs)
  = Handed n :: Replied r true :: serve_requests true reqs.
Proof.
  unfold greeting_name, is_greeting. cbn [serve_requests].
  destruct (String.eqb (ReqType r) "@duplex-greeting"); [|discriminate].
  destruct (Unmarshal (Payload r) {| Name := "" |}) as [[e|] g]; [discriminate|].
  intros [= <-]. reflexivity.
Qed.

Lemma nameCh_recv_refusals (pre : list ssh_Request) (trace : list served) :
  nameCh_recv (refusals pre ++ trace) = nameCh_recv trace.
Proof.
  unfold refusals.
  induction (List.filter (fun r => negb (is_greeting r)) pre) as [|r l IH];
    [reflexivity | exact IH].
Qed.

(** X13: on a connection on which no well-formed greeting arrives, whether
    the dialer has taken its name already or not, every request that is not
    named [@duplex-greeting] gets a negative reply, in the order of arrival;
    a request named [@duplex-greeting] whose payload does not decode gets no
    reply at all; nothing is handed to the dialer and the loop does not get
    stuck. *)
Theorem X13_requests_without_greeting (taken : bool) (reqs : list ssh_Request) :
  Forall (fun r => greeting_name r = None) reqs ->
  serve_requests taken reqs
  = map (fun r => Replied r false)
      (List.filter (fun r => negb (String.eqb (ReqType r) "@duplex-greeting")) reqs) /\
  nameCh_recv (serve_requests taken reqs) = None.
Proof.
  intros Hreqs.
  pose proof (serve_requests_before taken reqs [] Hreqs) as E.
  rewrite ?app_nil_r in E. cbn [serve_requests] in E. rewrite ?app_nil_r in E.
  split; [exact E|].
  rewrite E, <- (app_nil_r (refusals reqs)), nameCh_recv_refusals. reflexivity.
Qed.

(** The loop hands over at most one name, acknowledges exactly the greeting
    whose name it handed over, and serves nothing after it got stuck. *)
Lemma serve_requests_counts (reqs : list ssh_Request) :
  forall taken,
    let trace := serve_requests taken reqs in
    (length (List.filter is_Handed trace) <= if taken then 0 else 1)%nat /\
    length (List.filter is_granted trace) = length (List.filter is_Handed trace) /\
    (forall before n after, trace = before ++ Stuck n :: after -> after = []).
Proof.
  induction reqs as [|r reqs IH]; intros taken.
  - cbn. repeat split; [destruct taken; lia|].
    intros [|e before] n after E; discriminate E.
  - cbn [serve_requests].
    destruct (String.eqb (ReqType r) "@duplex-greeting").
    + destruct (Unmarshal (Payload r) {| Name := "" |}) as [[e|] g].
      * apply IH.
      * destruct taken.
        -- cbn. repeat split; [lia|].
           intros [|e before] n after E.
           ++ injection E as _ <-. reflexivity.
           ++ injection E as _ E. destruct before; discriminate E.
        -- destruct (IH true) as (H1 & H2 & H3). cbn [List.filter is_Handed is_granted length].
           split; [cbn in H1; lia|]. split; [cbn in H1; lia|].
           intros [|e0 [|e1 before]] n after E; try discriminate E.
           injection E as _ _ E. exact (H3 before n after E).
    + destruct (IH taken) as (H1 & H2 & H3).
      cbn [List.filter is_Handed is_granted].
      split; [exact H1|]. split; [exact H2|].
      intros [|e0 before] n after E; try discriminate E.
      injection E as _ E. exact (H3 before n after E).
Qed.

(** A request named [@duplex-greeting] whose payload decodes carries a name. *)
Lemma greeting_name_of (r : ssh_Request) (g : ssh_greetingPayload) :
  String.eqb (ReqType r) "@duplex-greeting" = true ->
  Unmarshal (Payload r) {| Name := "" |} = (None, g) ->
  greeting_name r = Some (Name g).
Proof.
  intros Hty Hdec. unfold greeting_name, is_greeting. rewrite Hty, Hdec. reflexivity.
Qed.

(** Every reply of the loop answers a request that arrived.  A positive one
    answers a well-formed greeting, comes right after the hand-over of that
    greeting's name, and only while the dialer has not taken a name; a
    negative one answers a request that is not named [@duplex-greeting]. *)
Lemma serve_requests_replies (reqs : list ssh_Request) :
  forall taken before r ok after,
    serve_requests taken reqs = before ++ Replied r ok :: after ->
    In r reqs /\
    (ok = true ->
     taken = false /\
     exists before' n, before = before' ++ [Handed n] /\ greeting_name r = Some n) /\
    (ok = false -> is_greeting r = false).
Proof.
  induction reqs as [|r0 reqs IH]; intros taken before r ok after E.
  - destruct before; discriminate E.
  - cbn [serve_requests] in E.
    destruct (String.eqb (ReqType r0) "@duplex-greeting") eqn:Hty.
    + destruct (Unmarshal (Payload r0) {| Name := "" |}) as [[e|] g] eqn:Hdec.
      * destruct (IH _ _ _ _ _ E) as (Hin & Ht & Hf).
        split; [right; exact Hin|]. split; assumption.
      * destruct taken.
        -- destruct before as [|d [|d' before']]; discriminate E.
        -- destruct before as [|d [|d' before']]; [discriminate E| |].
           ++ injection E as <- <- <- <-.
              split; [left; reflexivity|]. split; [|discriminate].
              intros _. split; [reflexivity|]. exists [], (Name g).
              split; [reflexivity|]. exact (greeting_name_of r0 g Hty Hdec).
           ++ injection E as _ _ E. destruct (IH _ _ _ _ _ E) as (Hin & Ht & Hf).
              split; [right; exact Hin|]. split; [|exact Hf].
              intros Hok. destruct (Ht Hok) as [Hc _]. discriminate Hc.
    + destruct before as [|d before'].
      * injection E as <- <- <-.
        split; [left; reflexivity|]. split; [discriminate|].
        intros _. exact Hty.
      * injection E as <- E. destruct (IH _ _ _ _ _ E) as (Hin & Ht & Hf).
        split; [right; exact Hin|]. split; [|exact Hf].
        intros Hok. destruct (Ht Hok) as (Hc & before'' & n & -> & Hn).
        split; [exact Hc|]. exists (Replied r0 false :: before''), n.
        split; [reflexivity | exact Hn].
Qed.

(** Every hand-over happens while the dialer has not taken a name, nothing
    was handed over before it, and the next thing the loop does is to grant
    the greeting whose name it handed over. *)
Lemma serve_requests_hand_overs (reqs : list ssh_Request) :
  forall taken before n after,
    serve_requests taken reqs = before ++ Handed n :: after ->
    taken = false /\
    List.filter is_Handed before = [] /\
    exists r after', after = Replied r true :: after' /\ In r reqs /\
                     greeting_name r = Some n.
Proof.
  induction reqs as [|r0 reqs IH]; intros taken before n after E.
  - destruct before; discriminate E.
  - cbn [serve_requests] in E.
    destruct (String.eqb (ReqType r0) "@duplex-greeting") eqn:Hty.
    + destruct (Unmarshal (Payload r0) {| Name := "" |}) as [[e|] g] eqn:Hdec.
      * destruct (IH _ _ _ _ E) as (Ht & Hb & r & after' & Ha & Hin & Hn).
        split; [exact Ht|]. split; [exact Hb|]. exists r, after'.
        split; [exact Ha|]. split; [right; exact Hin | exact Hn].
      * destruct taken.
        -- destruct before as [|d [|d' before']]; discriminate E.
        -- destruct before as [|d [|d' before']]; [|discriminate E|].
           ++ injection E as <- <-. split; [reflexivity|]. split; [reflexivity|].
              exists r0, (serve_requests true reqs).
              split; [reflexivity|]. split; [left; reflexivity|].
              exact (greeting_name_of r0 g Hty Hdec).
           ++ injection E as _ _ E. destruct (IH _ _ _ _ E) as (Ht & _).
              discriminate Ht.
    + destruct before as [|d before']; [discriminate E|].
      injection E as <- E.
      destruct (IH _ _ _ _ E) as (Ht & Hb & r & after' & Ha & Hin & Hn).
      split; [exact Ht|]. split; [exact Hb|]. exists r, after'.
      split; [exact Ha|]. split; [right; exact Hin | exact Hn].
Qed.

(** X14: on every connection, whatever requests arrive, the request loop
    hands at most one name to the dialer, and none once the dialer has taken
    one; it grants exactly the greeting whose name it handed over, so at
    most one request is ever acknowledged positively; and once it is stuck
    on a further greeting, it does nothing more.  Reply by reply: every
    reply answers a request that arrived; a positive reply answers a
    well-formed greeting and comes right after the hand-over of that
    greeting's name; a negative reply answers a request that is not named
    [@duplex-greeting]; and every hand-over is followed at once by the
    positive reply to the greeting that carries the name handed over. *)
Theorem X14_at_most_one_greeting_granted (taken : bool) (reqs : list ssh_Request) :
  let trace := serve_requests taken reqs in
  (length (List.filter is_Handed trace) <= if taken then 0 else 1)%nat /\
  length (List.filter is_granted trace) = length (List.filter is_Handed trace) /\
  (forall before n after, trace = before ++ Stuck n :: after -> after = []) /\
  (forall before r ok after,
     trace = before ++ Replied r ok :: after ->
     In r reqs /\
     (ok = true ->
      taken = false /\
      exists before' n, before = before' ++ [Handed n] /\ greeting_name r = Some n) /\
     (ok = false -> String.eqb (ReqType r) "@duplex-greeting" = false)) /\
  (forall before n after,
     trace = before ++ Handed n :: after ->
     taken = false /\
     List.filter is_Handed before = [] /\
     exists r after', after = Replied r true :: after' /\ In r reqs /\
                      greeting_name r = Some n).
Proof.
  destruct (serve_requests_counts reqs taken) as (K1 & K2 & K3).
  split; [exact K1|]. split; [exact K2|]. split; [exact K3|]. split.
  - intros before r ok after E. exact (serve_requests_replies reqs _ _ _ _ _ E).
  - intros before n after E. exact (serve_requests_hand_overs reqs _ _ _ _ E).
Qed.

End Requests_more.

Lemma X13_requests_without_greeting_witness :
  serve_requests true
    [keepalive; {| ReqType := "@duplex-greeting"; WantReply := true; Payload := [] |};
     keepalive]
  = [Replied keepalive false; Replied keepalive false].
Proof.
  refine (proj1 (X13_requests_without_greeting true
                   [keepalive;
                    {| ReqType := "@duplex-greeting"; WantReply := true; Payload := [] |};
                    keepalive] _)).
  repeat constructor.
Defined.

Section Dial_more.
Context {T S : Type} `{ssh_Codec ssh_greetingPayload}.
Variable user_Current : result string.
Variable ioutil_ReadFile : string -> result (list byte).
Variable ssh_ParsePrivateKey : list byte -> result S.
Variable net_Dial : string -> string -> result net_Conn.
Variable NewClientConn :
  net_Conn -> string -> ssh_ClientConfig S ->
  result (ssh_Conn * list (ssh_NewChannel T) * list ssh_Request).

(** X15: a dial panics exactly when loading the key panics (a key path of
    fewer than two bytes, or a path under [~/] with no current user), with
    that panic.  It returns an error exactly when loading the key, dialing
    the network or the handshake returns one, and the error is that step's,
    the first to fail.  Nothing that happens to the greeting makes a dial
    panic or return an error. *)
Theorem X15_dial_errors (dialer : Peer T) (network address : string) :
  let key := loadPrivateKey user_Current ioutil_ReadFile ssh_ParsePrivateKey
               (GetOption dialer OptPrivateKey) in
  let dial := newPeerConnection_ssh user_Current ioutil_ReadFile ssh_ParsePrivateKey
                net_Dial NewClientConn dialer network address in
  (forall msg, dial = Panics msg <-> key = Panics msg) /\
  (forall e,
     dial = Returns (Some (Err e)) <->
     key = Returns (Err e) \/
     (exists pk, key = Returns (Ok pk) /\ net_Dial network address = Err e) \/
     (exists pk netConn,
        key = Returns (Ok pk) /\
        net_Dial network address = Ok netConn /\
        NewClientConn netConn address
          {| config_User := GetOption dialer OptName; config_Auth := [pk] |} = Err e)).
Proof.
  intros key dial. subst key dial. unfold newPeerConnection_ssh.
  destruct (loadPrivateKey user_Current ioutil_ReadFile ssh_ParsePrivateKey
              (GetOption dialer OptPrivateKey)) as [[pk|e1]|msg1] eqn:Hk.
  - destruct (net_Dial network address) as [netConn|e2] eqn:Hd.
    + destruct (NewClientConn netConn address
                  {| config_User := GetOption dialer OptName; config_Auth := [pk] |})
        as [[[sshConn chans] reqs]|e3] eqn:Hc.
      * split.
        -- intros msg. split; [|discriminate].
           destruct (nameCh_recv (serve_requests false reqs)); discriminate.
        -- intros e. split.
           ++ destruct (nameCh_recv (serve_requests false reqs)); discriminate.
           ++ intros [E | [(pk' & _ & E) | (pk' & n' & [= <-] & [= <-] & E)]];
                try discriminate E.
              rewrite Hc in E. discriminate E.
      * split.
        -- intros msg. split; discriminate.
        -- intros e. split.
           ++ intros [= ->]. right. right. exists pk, netConn. repeat split. exact Hc.
           ++ intros [E | [(pk' & _ & E) | (pk' & n' & [= <-] & [= <-] & E)]];
                try discriminate E.
              rewrite Hc in E. injection E as ->. reflexivity.
    + split.
      * intros msg. split; discriminate.
      * intros e. split.
        -- intros [= ->]. right. left. exists pk. split; reflexivity.
        -- intros [E | [(pk' & _ & E) | (pk' & n' & _ & E & _)]]; try discriminate E.
           injection E as ->. reflexivity.
  - split.
    + intros msg. split; discriminate.
    + intros e. split.
      * intros [= ->]. left. reflexivity.
      * intros [E | [(pk' & E & _) | (pk' & n' & E & _)]]; try discriminate E.
        injection E as ->. reflexivity.
  - split.
    + intros msg. split; intros [= ->]; reflexivity.
    + intros e. split; [discriminate|].
      intros [E | [(pk' & E & _) | (pk' & n' & E & _)]]; discriminate E.
Qed.

(** X16: the dial takes the name of the first well-formed greeting.  When
    the transport connection is up and the requests that arrive before a
    well-formed greeting are no well-formed greetings themselves, the dial
    returns a connection named as that greeting says, with the address
    [network://address]; of the earlier requests, those that are not named
    [@duplex-greeting] have been refused, in order, and those that are, but
    do not decode, have got no reply. *)
Theorem X16_first_well_formed_greeting (dialer : Peer T) (network address : string)
  (pk : S) (netConn : net_Conn) (sshConn : ssh_Conn)
  (chans : list (ssh_NewChannel T)) (pre post : list ssh_Request)
  (r : ssh_Request) (n : string) :
  loadPrivateKey user_Current ioutil_ReadFile ssh_ParsePrivateKey
    (GetOption dialer OptPrivateKey) = Returns (Ok pk) ->
  net_Dial network address = Ok netConn ->
  NewClientConn netConn address
    {| config_User := GetOption dialer OptName; config_Auth := [pk] |}
  = Ok (sshConn, chans, pre ++ r :: post) ->
  Forall (fun r => greeting_name r = None) pre ->
  greeting_name r = Some n ->
  newPeerConnection_ssh user_Current ioutil_ReadFile ssh_ParsePrivateKey
    net_Dial NewClientConn dialer network address
  = Returns (Some (Ok {| addr := network +:+ "://" +:+ address; name := n;
                         conn := sshConn |})) /\
  serve_requests false (pre ++ r :: post)
  = refusals pre ++ Handed n :: Replied r true :: serve_requests true post.
Proof.
  intros Hk Hd Hc Hpre Hr.
  assert (Htrace : serve_requests false (pre ++ r :: post)
                   = refusals pre ++ Handed n :: Replied r true
                     :: serve_requests true post).
  { rewrite serve_requests_before by exact Hpre.
    rewrite (serve_requests_first r post n Hr). reflexivity. }
  split; [|exact Htrace].
  unfold newPeerConnection_ssh. rewrite Hk, Hd, Hc, Htrace, nameCh_recv_refusals.
  reflexivity.
Qed.

End Dial_more.

Lemma X16_first_well_formed_greeting_witness :
  newPeerConnection_ssh the_user key_file parse_key dial_through
    (handshake_then granting []
       ([keepalive;
         {| ReqType := "@duplex-greeting"; WantReply := true; Payload := [] |}]
        ++ greeting_request (T := nat) alice :: [greeting_request (T := nat) bob]))
    bob "tcp" "10.0.0.1:22"
  = Returns (Some (Ok {| addr := "tcp://10.0.0.1:22"; name := "alice";
                         conn := granting |})).
Proof.
  assert (Hkey :
    loadPrivateKey the_user key_file parse_key (GetOption bob OptPrivateKey)
    = Returns (Ok [x01; x02]%byte)) by reflexivity.
  refine (proj1 (X16_first_well_formed_greeting the_user key_file parse_key
                   dial_through (handshake_then granting [] _)
                   bob "tcp" "10.0.0.1:22" [x01; x02]%byte to_alice granting []
                   [keepalive;
                    {| ReqType := "@duplex-greeting"; WantReply := true;
                       Payload := [] |}]
                   [greeting_request (T := nat) bob]
                   (greeting_request (T := nat) alice) "alice"
                   Hkey eq_refl eq_refl _ _)).
  - repeat constructor.
  - reflexivity.
Defined.

(** ** Opening a channel *)

Section Open_facts.
Context {T : Type} `{ssh_Codec ssh_channelData}.
Variable OpenChannel : ssh_Conn -> string -> list byte -> result (T * list ssh_Request).

(** X17: the two ends of a channel agree on its metadata.  [Open] asks for
    a sub-channel of type [@duplex] with the encoded service and headers.
    When this open arrives at a peer whose dispatch loop handles it alone,
    the codec decodes what was encoded, the service is not empty and both
    sides of the transport succeed, then [Open] returns a channel whose
    service and headers are the caller's, and the channel the remote peer
    puts on its intake queue carries the same service and headers. *)
Theorem X17_Open_then_accept (c : ssh_peerConnection) (service : string)
  (headers : list string) (ch ch' : T) (reqs : list ssh_Request)
  (newCh : ssh_NewChannel T) (meta : ssh_channelData) (peer : Peer T) :
  OpenChannel (conn c) "@duplex" (Marshal {| Service := service; Headers := headers |})
  = Ok (ch, reqs) ->
  ChannelType newCh = "@duplex" ->
  ExtraData newCh = Marshal {| Service := service; Headers := headers |} ->
  nc_Accept newCh = Ok ch' ->
  (forall m, Unmarshal (Marshal {| Service := service; Headers := headers |}) m
             = (None, {| Service := service; Headers := headers |})) ->
  service <> "" ->
  exists opened,
    Open OpenChannel c service headers = Ok opened /\
    Channel opened = ch /\
    Service_of opened = service /\ Headers_of opened = headers /\
    incomingCh (snd (fst (accept_loop [newCh] meta peer)))
    = incomingCh peer ++ [{| Channel := ch'; channelData := channelData opened |}].
Proof.
  intros Ho Hty Hdata Hacc Hcodec Hne.
  eexists. unfold Open. rewrite Ho. split; [reflexivity|].
  cbn [Channel channelData Service_of Headers_of Service Headers].
  repeat split.
  cbn [accept_loop]. rewrite Hty. cbn [String.eqb Ascii.eqb]. 
  change (String.eqb "@duplex" "@duplex") with true. cbv iota.
  unfold accept_duplex. rewrite Hdata, Hcodec. cbn [Service].
  destruct (String.eqb_spec service "") as [E|_]; [contradiction|].
  rewrite Hacc. reflexivity.
Qed.


End Open_facts.

Lemma X17_Open_then_accept_witness :
  exists opened,
    Open (fun _ _ _ => Ok (5%nat, [])) 
      {| addr := "tcp://10.0.0.1:22"; name := "alice"; conn := granting |}
      "echo" ["v=1"]
    = Ok opened /\
    incomingCh (snd (fst (accept_loop [open_duplex 1 "echo" ["v=1"]] zero_meta alice)))
    = [{| Channel := 1%nat; channelData := channelData opened |}].
Proof.
  destruct (X17_Open_then_accept (fun _ _ _ => Ok (5%nat, []))
              {| addr := "tcp://10.0.0.1:22"; name := "alice"; conn := granting |}
              "echo" ["v=1"] 5%nat 1%nat [] (open_duplex 1 "echo" ["v=1"])
              zero_meta alice eq_refl eq_refl eq_refl eq_refl
              (fun _ => eq_refl) ltac:(discriminate))
    as (opened & Ho & _ & _ & _ & Hq).
  exists opened. split; [exact Ho | exact Hq].
Defined.


(** ** Loading the private key *)

Lemma substring_all (s : string) :
  forall m, (String.length s <= m)%nat -> String.substring 0 m s = s.
Proof.
  induction s as [|a s IH]; intros m Hm.
  - destruct m; reflexivity.
  - destruct m as [|m]; [cbn in Hm; lia|].
    cbn [String.substring]. rewrite IH by (cbn in Hm; lia). reflexivity.
Qed.

Section Keys_facts.
Context {S : Type}.
Variable user_Current : result string.
Variable ioutil_ReadFile : string -> result (list byte).
Variable ssh_ParsePrivateKey : list byte -> result S.

(** X19: the expansion of [~/].  For a path that starts with [~/] and a
    current user whose home directory is known, the file that is read is the
    home directory followed by the path without its first byte, whatever
    further [~] the path or the home directory hold; the result is the
    error of reading that file, or else whatever parsing its contents
    gives. *)
Theorem X19_home_directory_expansion (rest HomeDir : string) :
  user_Current = Ok HomeDir ->
  loadPrivateKey user_Current ioutil_ReadFile ssh_ParsePrivateKey ("~/" +:+ rest)
  = Returns (match ioutil_ReadFile (HomeDir +:+ "/" +:+ rest) with
             | Err err => Err err
             | Ok pem => ssh_ParsePrivateKey pem
             end).
Proof.
  intros Hu. unfold loadPrivateKey. 
  change ("~/" +:+ rest) with (String "~"%char (String "/"%char rest)).
  change ("/" +:+ rest) with (String "/"%char rest).
  cbn [String.length Nat.ltb Nat.leb].
  assert (E2 : String.substring 0 2 (String "~"%char (String "/"%char rest)) = "~/").
  { cbn [String.substring]. destruct rest; reflexivity. }
  rewrite E2. change (String.eqb "~/" "~/") with true. cbv iota. rewrite Hu.
  assert (Er : strings_Replace_1 (String "~"%char (String "/"%char rest)) "~" HomeDir
               = HomeDir +:+ String "/"%char rest).
  { cbn [strings_Replace_1].
    replace (String.prefix "~" (String "~"%char (String "/"%char rest))) with true
      by (cbn; destruct (Ascii.ascii_dec "~"%char "~"%char); [reflexivity | congruence]).
    cbn [String.length String.substring].
    rewrite substring_all by lia. reflexivity. }
  rewrite Er. destruct (ioutil_ReadFile _); reflexivity.
Qed.

(** X20: the paths on which [loadPrivateKey] panics instead of returning an
    error, and the paths it leaves alone.  A path of fewer than two bytes,
    the empty path among them, panics at [path[:2]]; a path that starts with
    [~/] panics when the current user cannot be determined; every other path
    is read as it is, also when it holds a [~] further on. *)
Theorem X20_loadPrivateKey_paths (path : string) :
  ((String.length path < 2)%nat ->
   loadPrivateKey user_Current ioutil_ReadFile ssh_ParsePrivateKey path
   = Panics "slice bounds out of range") /\
  ((2 <= String.length path)%nat -> String.substring 0 2 path = "~/" ->
   forall e, user_Current = Err e ->
   loadPrivateKey user_Current ioutil_ReadFile ssh_ParsePrivateKey path
   = Panics "invalid memory address or nil pointer dereference") /\
  ((2 <= String.length path)%nat -> String.substring 0 2 path <> "~/" ->
   loadPrivateKey user_Current ioutil_ReadFile ssh_ParsePrivateKey path
   = Returns (match ioutil_ReadFile path with
              | Err err => Err err
              | Ok pem => ssh_ParsePrivateKey pem
              end)).
Proof.
  unfold loadPrivateKey. split; [|split].
  - intros Hlen. apply Nat.ltb_lt in Hlen. rewrite Hlen. reflexivity.
  - intros Hlen Hpre e Hu. replace (String.length path <? 2)%nat with false
      by (symmetry; apply Nat.ltb_ge; exact Hlen).
    rewrite Hpre. change (String.eqb "~/" "~/") with true. cbv iota.
    rewrite Hu. reflexivity.
  - intros Hlen Hpre. replace (String.length path <? 2)%nat with false
      by (symmetry; apply Nat.ltb_ge; exact Hlen).
    destruct (String.eqb_spec (String.substring 0 2 path) "~/") as [E|_];
      [contradiction|].
    destruct (ioutil_ReadFile path); reflexivity.
Qed.

End Keys_facts.

Lemma X19_home_directory_expansion_witness :
  loadPrivateKey (S := list byte) (Ok "/home/bob")
    (fun p => if String.eqb p "/home/bob/.ssh/id~rsa" then Ok [x01]%byte else Err EOF)
    (fun pem => Ok pem) "~/.ssh/id~rsa"
  = Returns (Ok [x01]%byte).
Proof.
  refine (X19_home_directory_expansion (Ok "/home/bob") _ _ ".ssh/id~rsa" "/home/bob" _).
  reflexivity.
Defined.

Lemma X20_loadPrivateKey_paths_witness :
  loadPrivateKey (S := list byte) (Ok "/home/bob") (fun _ => Err EOF) (fun pem => Ok pem) ""
  = Panics "slice bounds out of range".
Proof.
  refine (proj1 (X20_loadPrivateKey_paths (Ok "/home/bob") _ _ "") _).
  cbn. lia.
Defined.

(** ** The listener *)

Section Listen_facts.
Context {T K S L : Type} `{ssh_Codec ssh_greetingPayload} `{ssh_Codec ssh_channelData}
        `{ssh_PublicKey K} `{ssh_Signer S K}.
Variable user_Current : result string.
Variable ioutil_ReadFile : string -> result (list byte).
Variable ssh_ParsePrivateKey : list byte -> result S.
Variable net_Listen : string -> string -> result L.
Variable NewServerConn :
  net_Conn -> ssh_ServerConfig K S ->
  result (ssh_Conn * list (ssh_NewChannel T) * list ssh_Request).

Lemma accept_conns_facts (config : ssh_ServerConfig K S) (typ address : string)
  (accepts : list (result net_Conn)) :
  forall peer : Peer T,
    let peer' := fst (accept_conns NewServerConn accepts config peer typ address) in
    let effs := snd (accept_conns NewServerConn accepts config peer typ address) in
    handled_conns effs = accepted_before_error accepts /\
    List.filter is_peer_Unbind effs
    = (if accept_failed accepts then [peer_Unbind (typ +:+ "://" +:+ address)] else []) /\
    List.filter is_os_Remove effs = [] /\
    (forall before n after, effs = before ++ peer_Unbind n :: after -> after = []) /\
    options peer' = options peer /\
    (forall key, is_Some (conns peer !! key) -> is_Some (conns peer' !! key)) /\
    (forall key, is_Some (conns peer' !! key) ->
       is_Some (conns peer !! key) \/
       In key (map RemoteAddr_String (accepted_before_error accepts))).
Proof.
  induction accepts as [|[netConn|e] accepts IH]; intros peer.
  - cbn. split; [reflexivity|]. split; [reflexivity|]. split; [reflexivity|].
    split; [intros [|x before] n after E; discriminate E|].
    split; [reflexivity|]. split; [auto|]. intros key Hk. left. exact Hk.
  - cbn [accept_conns accepted_before_error accept_failed].
    destruct (handleConn_facts (ssh_ServerConfig K S) NewServerConn netConn config peer)
      as (_ & O1 & Hother & Hkeep & _).
    destruct (ssh_handleConn (ssh_ServerConfig K S) NewServerConn netConn config peer)
      as [peer1 done1].
    cbn [fst snd] in O1, Hother, Hkeep.
    destruct (IH peer1) as (I1 & I2 & I3 & I4 & I5 & I6 & I7).
    destruct (accept_conns NewServerConn accepts config peer1 typ address)
      as [peer2 rest].
    cbn [fst snd handled_conns List.filter is_peer_Unbind is_os_Remove map] in *.
    split; [rewrite I1; reflexivity|]. split; [exact I2|]. split; [exact I3|].
    split.
    { intros [|x before] n after E; [discriminate E|].
      injection E as _ E. exact (I4 before n after E). }
    split; [congruence|]. split; [intros key Hk; apply I6, Hkeep, Hk|].
    intros key Hk. destruct (I7 key Hk) as [Hin|Hin].
    + destruct (decide (key = RemoteAddr_String netConn)) as [->|Hne].
      * right. left. reflexivity.
      * left. rewrite <- (Hother key Hne). exact Hin.
    + right. right. exact Hin.
  - cbn. split; [reflexivity|]. split; [reflexivity|]. split; [reflexivity|].
    split.
    { intros [|x before] n after E.
      - injection E as _ <-. reflexivity.
      - injection E as _ E. destruct before; discriminate E. }
    split; [reflexivity|]. split; [auto|]. intros key Hk. left. exact Hk.
Qed.

(** X21: the accept loop of the listener, the connections handled in turn.
    It handles exactly the connections that [Accept] gave before its first
    error, in order, and none after it.  It unbinds the endpoint
    [typ://address] if and only if [Accept] returned an error, once, as the
    last thing it does.  It leaves the options of the peer alone and removes
    no entry from the registry; every entry of the registry afterwards was
    there before or is under the remote address of a connection it
    handled. *)
Theorem X21_accept_loop_of_listener (config : ssh_ServerConfig K S)
  (typ address : string) (accepts : list (result net_Conn)) (peer : Peer T) :
  let peer' := fst (accept_conns NewServerConn accepts config peer typ address) in
  let effs := snd (accept_conns NewServerConn accepts config peer typ address) in
  handled_conns effs = accepted_before_error accepts /\
  List.filter is_peer_Unbind effs
  = (if accept_failed accepts then [peer_Unbind (typ +:+ "://" +:+ address)] else []) /\
  (forall before n after, effs = before ++ peer_Unbind n :: after -> after = []) /\
  options peer' = options peer /\
  (forall key, is_Some (conns peer !! key) -> is_Some (conns peer' !! key)) /\
  (forall key, is_Some (conns peer' !! key) ->
     is_Some (conns peer !! key) \/
     In key (map RemoteAddr_String (accepted_before_error accepts))).
Proof.
  destruct (accept_conns_facts config typ address accepts peer)
    as (I1 & I2 & _ & I4 & I5 & I6 & I7).
  repeat split; assumption.
Qed.

(** X22: starting the listener.  The call panics exactly when loading the
    key panics, with that panic.  When loading the key returns an error, the
    call returns that error and has done nothing: no file is removed and
    nothing is bound.  When the key is loaded the call returns; for the type
    ["unix"] and no other, the file at the address is removed, once, before
    anything else, also when binding then fails; the error of binding is
    returned, and then no connection is handled and the peer is as it was. *)
Theorem X22_listener_start (accepts : list (result net_Conn)) (peer : Peer T)
  (typ address : string) :
  let key := loadPrivateKey user_Current ioutil_ReadFile ssh_ParsePrivateKey
               (GetOption peer OptPrivateKey) in
  let call := newPeerListener_ssh user_Current ioutil_ReadFile ssh_ParsePrivateKey
                net_Listen NewServerConn accepts peer typ address in
  (forall msg, call = Panics msg <-> key = Panics msg) /\
  (forall e, key = Returns (Err e) -> call = Returns (Err e, peer, [])) /\
  (forall pk, key = Returns (Ok pk) ->
     exists r,
       call = Returns r /\
       List.filter is_os_Remove (snd r)
       = (if String.eqb typ "unix" then [os_Remove address] else []) /\
       (typ = "unix" -> exists rest, snd r = os_Remove address :: rest) /\
       (forall e, net_Listen typ address = Err e ->
          fst r = (Err e, peer) /\ handled_conns (snd r) = []) /\
       (forall listener, net_Listen typ address = Ok listener ->
          fst (fst r) = Ok listener /\
          handled_conns (snd r) = accepted_before_error accepts)).
Proof.
  intros key call. subst key call. unfold newPeerListener_ssh.
  destruct (loadPrivateKey user_Current ioutil_ReadFile ssh_ParsePrivateKey
              (GetOption peer OptPrivateKey)) as [[pk0|e0]|msg0].
  - split; [intros msg; split; [|discriminate]|].
    { cbv zeta. destruct (net_Listen typ address); [|discriminate].
      destruct (accept_conns _ _ _ _ _ _); discriminate. }
    split; [discriminate|]. intros pk [= <-]. cbv zeta.
    set (config := {| config_PublicKeyCallback := _; config_HostKeys := _ |}).
    destruct (accept_conns_facts config typ address accepts peer)
      as (I1 & _ & I3 & _).
    destruct (net_Listen typ address) as [listener|e0].
    + destruct (accept_conns NewServerConn accepts config peer typ address)
        as [peer' done]. cbn [fst snd] in *.
      eexists. split; [reflexivity|]. cbn [fst snd].
      rewrite List.filter_app, I3, app_nil_r.
      split; [destruct (String.eqb typ "unix"); reflexivity|].
      split; [intros ->; eexists; reflexivity|].
      split; [discriminate|].
      intros l [= <-]. split; [reflexivity|].
      destruct (String.eqb typ "unix"); exact I1.
    + eexists. split; [reflexivity|]. cbn [fst snd].
      split; [destruct (String.eqb typ "unix"); reflexivity|].
      split; [intros ->; eexists; reflexivity|].
      split; [|discriminate].
      intros e [= <-]. split; [reflexivity|].
      destruct (String.eqb typ "unix"); reflexivity.
  - split; [intros msg; split; discriminate|].
    split; [intros e [= <-]; reflexivity | discriminate].
  - split; [intros msg; split; intros [= ->]; reflexivity|].
    split; discriminate.
Qed.

End Listen_facts.

Lemma X21_accept_loop_of_listener_witness :
  handled_conns
    (snd (accept_conns (K := list byte) (S := list byte)
            (handshake_gives refusing [] [])
            [Ok from_bob; Err EOF; Ok to_alice]
            {| config_PublicKeyCallback := PublicKeyCallback [x01]%byte;
               config_HostKeys := [[x01]%byte] |}
            alice "tcp" ":2222"))
  = [from_bob].
Proof.
  refine (proj1 (X21_accept_loop_of_listener (handshake_gives refusing [] []) _
                   "tcp" ":2222" [Ok from_bob; Err EOF; Ok to_alice] alice)).
Defined.

Lemma X22_listener_start_witness :
  exists r rest,
    newPeerListener_ssh (K := list byte) (L := unit) the_user key_file parse_key
      (fun _ _ => Err (errors_New "address already in use"))
      (handshake_gives refusing [] []) [Ok from_bob] alice "unix"
      "/tmp/duplex.sock"
    = Returns r /\
    snd r = os_Remove "/tmp/duplex.sock" :: rest.
Proof.
  assert (Hkey :
    loadPrivateKey the_user key_file parse_key (GetOption alice OptPrivateKey)
    = Returns (Ok [x01; x02]%byte)) by reflexivity.
  destruct (proj2 (proj2 (X22_listener_start (K := list byte) (L := unit)
                     the_user key_file parse_key
                     (fun _ _ => Err (errors_New "address already in use"))
                     (handshake_gives refusing [] []) [Ok from_bob] alice
                     "unix" "/tmp/duplex.sock")) [x01; x02]%byte Hkey)
    as (r & Hcall & _ & Hrem & _).
  destruct (Hrem eq_refl) as [rest Hrest].
  exists r, rest. split; [exact Hcall | exact Hrest].
Defined.
